(** * LeadTrackr: the leads container, the auth container and the
      persistence bridge

    A shallow embedding of [Store/leadsSlice.ts], [Store/authSlice.ts],
    the redirect effect of [app/index.tsx] and the handlers of
    [tableData.tsx] and [addLeadForm.tsx] that keep the key-value store
    in step with the Redux state.

    JavaScript strings are modelled as [string] (a sequence of bytes,
    the UTF-8 form of a well-formed string), [string | null] as
    [option string], arrays as lists, and the two key-value stores
    (SecureStore, AsyncStorage) as [gmap string string]. *)

From Stdlib Require Import ZArith Ascii String.
From stdpp Require Import base option list gmap strings pretty.

Local Open Scope Z_scope.

(** ** Leads state container ([leadsSlice.ts]) *)

Module Leads.

Inductive Status := New | Contacted | Qualified | Lost.
Inductive Source := Website | Referral | ColdCall | SocialMedia.

Record Lead := mkLead {
  id : string;
  name : string;
  company : string;
  email : string;
  phone : string;
  status : Status;
  source : Source;
  notes : string
}.

Record LeadsState := mkLeadsState { leads : list Lead }.

Definition initialState : LeadsState := {| leads := [] |}.

#[global] Instance Status_eq_dec : EqDecision Status.
Proof. solve_decision. Defined.
#[global] Instance Source_eq_dec : EqDecision Source.
Proof. solve_decision. Defined.
#[global] Instance Lead_eq_dec : EqDecision Lead.
Proof. solve_decision. Defined.

(** [Array.prototype.findIndex]: the index of the first element that
    satisfies [p], and [-1] when there is none. *)
Fixpoint findIndex {A} (p : A → bool) (xs : list A) : Z :=
  match xs with
  | [] => -1
  | x :: xs' =>
      if p x then 0
      else let r := findIndex p xs' in
           if r =? -1 then -1 else r + 1
  end.

(** [l.id === i] *)
Definition has_id (i : string) (l : Lead) : bool := String.eqb (id l) i.

Definition setLeads (state : LeadsState) (payload : list Lead) : LeadsState :=
  {| leads := payload |}.

(** [state.leads.push(action.payload)] *)
Definition addLead (state : LeadsState) (payload : Lead) : LeadsState :=
  {| leads := leads state ++ [payload] |}.

Definition updateLead (state : LeadsState) (payload : Lead) : LeadsState :=
  let idx := findIndex (has_id (id payload)) (leads state) in
  if negb (idx =? -1)
  then {| leads := <[Z.to_nat idx := payload]> (leads state) |}
  else state.

(** [state.leads.filter(l => l.id !== action.payload)] *)
Definition deleteLead (state : LeadsState) (payload : string) : LeadsState :=
  {| leads := List.filter (λ l, negb (has_id payload l)) (leads state) |}.

Inductive Action :=
| SetLeads (payload : list Lead)
| AddLead (payload : Lead)
| UpdateLead (payload : Lead)
| DeleteLead (payload : string).

Definition reducer (state : LeadsState) (a : Action) : LeadsState :=
  match a with
  | SetLeads p => setLeads state p
  | AddLead p => addLead state p
  | UpdateLead p => updateLead state p
  | DeleteLead p => deleteLead state p
  end.

End Leads.

(** ** JSON text of a leads array

    [JSON.stringify] on a [Lead[]] and [JSON.parse] on the text the app
    stores.  The store under a [leads_<email>] key is only ever written
    with the serialisation of a [Lead[]], so the parser reads exactly
    that shape (an array of objects holding the eight properties in
    insertion order, no white space) at type [Lead[]]; any other text
    is reported as [None], the model of a thrown [SyntaxError].  Escape
    sequences above [\u007f] lie outside the byte model of strings and
    are rejected as well. *)

Module Json.
Import Leads.

Definition DQ : ascii := "034"%char.
Definition BS : ascii := "092"%char.

Definition str1 (c : ascii) : string := String c EmptyString.

(** Lower-case hexadecimal digit of a number below sixteen. *)
Definition hex_digit (n : N) : ascii :=
  if (n <? 10)%N then ascii_of_N (48 + n) else ascii_of_N (87 + n).

Definition unhex_digit (c : ascii) : option N :=
  let n := N_of_ascii c in
  if ((48 <=? n) && (n <=? 57))%N then Some (n - 48)%N
  else if ((97 <=? n) && (n <=? 102))%N then Some (n - 87)%N
  else if ((65 <=? n) && (n <=? 70))%N then Some (n - 55)%N
  else None.

(** One code unit inside [QuoteJSONString]. *)
Definition escape_char (c : ascii) : string :=
  let n := N_of_ascii c in
  if Ascii.eqb c DQ then String BS (str1 DQ)
  else if Ascii.eqb c BS then String BS (str1 BS)
  else if (n =? 8)%N then String BS "b"
  else if (n =? 9)%N then String BS "t"
  else if (n =? 10)%N then String BS "n"
  else if (n =? 12)%N then String BS "f"
  else if (n =? 13)%N then String BS "r"
  else if (n <? 32)%N then
    String BS (String "u" (String "0" (String "0"
      (String (hex_digit (n / 16)) (str1 (hex_digit (n mod 16)))))))
  else str1 c.

Fixpoint escape (s : string) : string :=
  match s with
  | EmptyString => EmptyString
  | String c s' => escape_char c +:+ escape s'
  end.

Definition quote (s : string) : string :=
  String DQ (escape s +:+ str1 DQ).

(** The character named by a one-letter escape. *)
Definition unescape (e : ascii) : option ascii :=
  if Ascii.eqb e DQ then Some DQ
  else if Ascii.eqb e BS then Some BS
  else if Ascii.eqb e "/" then Some "/"%char
  else if Ascii.eqb e "b" then Some "008"%char
  else if Ascii.eqb e "t" then Some "009"%char
  else if Ascii.eqb e "n" then Some "010"%char
  else if Ascii.eqb e "f" then Some "012"%char
  else if Ascii.eqb e "r" then Some "013"%char
  else None.

Definition unhex4 (a b c d : ascii) : option ascii :=
  x1 ← unhex_digit a; x2 ← unhex_digit b;
  x3 ← unhex_digit c; x4 ← unhex_digit d;
  let v := (4096 * x1 + 256 * x2 + 16 * x3 + x4)%N in
  if (v <? 128)%N then Some (ascii_of_N v) else None.

Definition cons_char (c : ascii) (r : option (string * string)) :
    option (string * string) :=
  '(s, rest) ← r; Some (String c s, rest).

(** The characters of a string literal after its opening quote, up to
    and including the closing quote; returns the string and the rest of
    the input. *)
Fixpoint parse_chars (s : string) : option (string * string) :=
  match s with
  | EmptyString => None
  | String c s' =>
      if Ascii.eqb c DQ then Some (EmptyString, s')
      else if Ascii.eqb c BS then
        match s' with
        | EmptyString => None
        | String e s'' =>
            if Ascii.eqb e "u" then
              match s'' with
              | String h1 (String h2 (String h3 (String h4 s3))) =>
                  match unhex4 h1 h2 h3 h4 with
                  | Some a => cons_char a (parse_chars s3)
                  | None => None
                  end
              | _ => None
              end
            else
              match unescape e with
              | Some a => cons_char a (parse_chars s'')
              | None => None
              end
        end
      else if (N_of_ascii c <? 32)%N then None
      else cons_char c (parse_chars s')
  end.

Definition parse_string (s : string) : option (string * string) :=
  match s with
  | String c s' => if Ascii.eqb c DQ then parse_chars s' else None
  | EmptyString => None
  end.

(** Strip the literal [pre] from the front of the input. *)
Fixpoint expect (pre s : string) : option string :=
  match pre with
  | EmptyString => Some s
  | String c pre' =>
      match s with
      | String d s' => if Ascii.eqb c d then expect pre' s' else None
      | EmptyString => None
      end
  end.

Definition status_text (st : Status) : string :=
  match st with
  | New => "New" | Contacted => "Contacted"
  | Qualified => "Qualified" | Lost => "Lost"
  end.

Definition source_text (so : Source) : string :=
  match so with
  | Website => "Website" | Referral => "Referral"
  | ColdCall => "Cold Call" | SocialMedia => "Social Media"
  end.

Definition status_of_text (s : string) : option Status :=
  if String.eqb s "New" then Some New
  else if String.eqb s "Contacted" then Some Contacted
  else if String.eqb s "Qualified" then Some Qualified
  else if String.eqb s "Lost" then Some Lost
  else None.

Definition source_of_text (s : string) : option Source :=
  if String.eqb s "Website" then Some Website
  else if String.eqb s "Referral" then Some Referral
  else if String.eqb s "Cold Call" then Some ColdCall
  else if String.eqb s "Social Media" then Some SocialMedia
  else None.

(** A property name with its colon. *)
Definition prop (k : string) : string := quote k +:+ ":".

Definition stringify_lead (l : Lead) : string :=
  "{" +:+ prop "id" +:+ quote (id l) +:+
  "," +:+ prop "name" +:+ quote (name l) +:+
  "," +:+ prop "company" +:+ quote (company l) +:+
  "," +:+ prop "email" +:+ quote (email l) +:+
  "," +:+ prop "phone" +:+ quote (phone l) +:+
  "," +:+ prop "status" +:+ quote (status_text (status l)) +:+
  "," +:+ prop "source" +:+ quote (source_text (source l)) +:+
  "," +:+ prop "notes" +:+ quote (notes l) +:+ "}".

Fixpoint stringify_elems (ls : list Lead) : string :=
  match ls with
  | [] => "]"
  | l :: ls' => "," +:+ stringify_lead l +:+ stringify_elems ls'
  end.

(** [JSON.stringify(leads)] *)
Definition stringify (ls : list Lead) : string :=
  match ls with
  | [] => "[]"
  | l :: ls' => "[" +:+ stringify_lead l +:+ stringify_elems ls'
  end.

Definition parse_prop (k : string) (s : string) : option (string * string) :=
  r ← expect (prop k) s; parse_string r.

Definition parse_lead (s : string) : option (Lead * string) :=
  r ← expect "{" s;
  '(v_id, r) ← parse_prop "id" r; r ← expect "," r;
  '(v_name, r) ← parse_prop "name" r; r ← expect "," r;
  '(v_company, r) ← parse_prop "company" r; r ← expect "," r;
  '(v_email, r) ← parse_prop "email" r; r ← expect "," r;
  '(v_phone, r) ← parse_prop "phone" r; r ← expect "," r;
  '(t_status, r) ← parse_prop "status" r; r ← expect "," r;
  '(t_source, r) ← parse_prop "source" r; r ← expect "," r;
  '(v_notes, r) ← parse_prop "notes" r; r ← expect "}" r;
  v_status ← status_of_text t_status;
  v_source ← source_of_text t_source;
  Some (mkLead v_id v_name v_company v_email v_phone v_status v_source v_notes, r).

(** The elements after the first, up to the closing bracket and the end
    of the input.  Every round consumes input, so the length of the
    input is fuel enough. *)
Fixpoint parse_elems (fuel : nat) (s : string) : option (list Lead) :=
  match fuel with
  | O => None
  | S fuel' =>
      match s with
      | String c s' =>
          if Ascii.eqb c "]" then
            match s' with EmptyString => Some [] | _ => None end
          else if Ascii.eqb c "," then
            '(l, r) ← parse_lead s';
            ls ← parse_elems fuel' r;
            Some (l :: ls)
          else None
      | EmptyString => None
      end
  end.

(** [JSON.parse(text)] read at type [Lead[]] *)
Definition parse (s : string) : option (list Lead) :=
  match s with
  | String c s' =>
      if Ascii.eqb c "[" then
        if String.eqb s' "]" then Some []
        else
          '(l, r) ← parse_lead s';
          ls ← parse_elems (String.length s) r;
          Some (l :: ls)
      else None
  | EmptyString => None
  end.

End Json.

(** ** Auth state container ([authSlice.ts]) *)

Module Auth.

(** *** JavaScript values received from the network

    A response body is any JSON value; reading a property that is not
    there gives [undefined].  Numbers are the integers. *)

#[warnings="-register-all"]
Inductive JsVal :=
| JUndefined
| JNull
| JBool (b : bool)
| JNum (n : Z)
| JStr (s : string)
| JArr (items : list JsVal)
| JObj (fields : list (string * JsVal)).

(** [ToBoolean] *)
Definition truthy (v : JsVal) : bool :=
  match v with
  | JUndefined | JNull => false
  | JBool b => b
  | JNum n => negb (n =? 0)
  | JStr s => negb (String.eqb s EmptyString)
  | JArr _ | JObj _ => true
  end.

(** [ToString], as the [Error] constructor and template literals apply
    it; an array is the comma-joined string forms of its elements, with
    [null] and [undefined] elements left empty.  A number is printed in
    digits, as the engine prints an integer below [10^21] in size. *)
Fixpoint to_string (v : JsVal) : string :=
  match v with
  | JUndefined => "undefined"
  | JNull => "null"
  | JBool true => "true"
  | JBool false => "false"
  | JNum n => pretty n
  | JStr s => s
  | JArr items =>
      (fix join (xs : list JsVal) : string :=
         match xs with
         | [] => EmptyString
         | x :: rest =>
             let e := match x with
                      | JUndefined | JNull => EmptyString
                      | _ => to_string x
                      end in
             match rest with
             | [] => e
             | _ :: _ => e +:+ "," +:+ join rest
             end
         end) items
  | JObj _ => "[object Object]"
  end.

(** [a || b] *)
Definition or_else (a b : JsVal) : JsVal := if truthy a then a else b.

(** What a [catch] clause can receive: an [Error] instance with its
    message, or some other thrown value. *)
Inductive Thrown :=
| ErrorObj (message : string)
| NotAnError.

(** [new Error(v)] *)
Definition new_Error (v : JsVal) : Thrown :=
  match v with
  | JUndefined => ErrorObj EmptyString
  | _ => ErrorObj (to_string v)
  end.

(** The last binding of [k] in an object's property list. *)
Fixpoint obj_get (k : string) (fields : list (string * JsVal)) : JsVal :=
  match fields with
  | [] => JUndefined
  | (k', v) :: rest =>
      match obj_get k rest with
      | JUndefined => if String.eqb k' k then v else JUndefined
      | found => found
      end
  end.

(** The engine's [TypeError] for a property read on [null] or
    [undefined]. *)
Definition type_error (k : string) (what : string) : Thrown :=
  ErrorObj ("Cannot read property '" +:+ k +:+ "' of " +:+ what).

(** [v.k] for the two properties the slice reads, [message] and
    [access_token]; primitives and arrays have neither. *)
Definition get_prop (v : JsVal) (k : string) : Thrown + JsVal :=
  match v with
  | JUndefined => inl (type_error k "undefined")
  | JNull => inl (type_error k "null")
  | JObj fields => inr (obj_get k fields)
  | _ => inr JUndefined
  end.

(** *** The remote API *)

Record Request := mkRequest {
  url : string;
  method : string;
  headers : list (string * string);
  body : option JsVal
}.

Record Response := mkResponse {
  status : Z;
  json_body : Thrown + JsVal   (* what [response.json()] settles to *)
}.

(** [response.ok] *)
Definition ok (r : Response) : bool := (200 <=? status r) && (status r <=? 299).

(** The network: every request either fails ([fetch] rejects) or is
    answered. *)
Definition World := Request → Thrown + Response.

Definition API_BASE : string := "https://api.escuelajs.co/api/v1".

Record LoginCredentials := mkCredentials {
  cred_email : string;
  cred_password : string
}.

Record RegisterUserData := mkRegisterUserData {
  reg_name : string;
  reg_email : string;
  reg_password : string;
  reg_gender : option string
}.

(** *** State and reducers *)

Record AuthState := mkAuthState {
  user : JsVal;              (* [JNull] for [null] *)
  token : option string;
  loading : bool;
  error : option string
}.

Definition initialState : AuthState :=
  {| user := JNull; token := None; loading := false; error := None |}.

Inductive AuthAction :=
| Logout
| ClearError
| LoginPending
| LoginFulfilled (access_token : string) (payload_user : JsVal)
| LoginRejected (payload : option string)
| RegisterPending
| RegisterFulfilled (payload : JsVal)
| RegisterRejected (payload : option string)
| LoadTokenPending
| LoadTokenFulfilled (payload : option string)
| LoadTokenRejected
| LogoutUserPending
| LogoutUserFulfilled
| LogoutUserRejected.

(** [(action.payload as string) ?? "An error occurred"] *)
Definition payload_or_default (payload : option string) : string :=
  match payload with
  | Some s => s
  | None => "An error occurred"
  end.

Definition reducer (state : AuthState) (a : AuthAction) : AuthState :=
  match a with
  | Logout =>
      {| user := JNull; token := None;
         loading := loading state; error := error state |}
  | ClearError =>
      {| user := user state; token := token state;
         loading := loading state; error := None |}
  | LoginPending | RegisterPending =>
      {| user := user state; token := token state;
         loading := true; error := None |}
  | LoginFulfilled access_token payload_user =>
      {| user := payload_user; token := Some access_token;
         loading := false; error := error state |}
  | LoginRejected payload | RegisterRejected payload =>
      {| user := user state; token := token state;
         loading := false; error := Some (payload_or_default payload) |}
  | RegisterFulfilled payload =>
      {| user := payload; token := token state;
         loading := false; error := error state |}
  | LoadTokenFulfilled payload =>
      {| user := user state; token := payload;
         loading := loading state; error := error state |}
  | LogoutUserFulfilled =>
      {| user := JNull; token := None;
         loading := loading state; error := error state |}
  | LoadTokenPending | LoadTokenRejected
  | LogoutUserPending | LogoutUserRejected => state
  end.

(** *** Effects

    A thunk runs against the device: the secure store, the Redux auth
    state it can dispatch to, and the log of the effects performed so
    far (oldest first).  A computation either returns or throws. *)

Inductive Event :=
| EvFetch (r : Request)
| EvSecureSet (k v : string)
| EvSecureGet (k : string)
| EvSecureDelete (k : string)
| EvDispatch (a : AuthAction).

Record Sys := mkSys {
  secure : gmap string string;
  auth : AuthState;
  trace : list Event
}.

Definition M (A : Type) : Type := Sys → (Thrown + A) * Sys.

Definition ret {A} (x : A) : M A := λ s, (inr x, s).

Definition throw {A} (e : Thrown) : M A := λ s, (inl e, s).

Definition bind {A B} (m : M A) (k : A → M B) : M B :=
  λ s, match m s with
       | (inr x, s') => k x s'
       | (inl e, s') => (inl e, s')
       end.

Definition try_catch {A} (m : M A) (handler : Thrown → M A) : M A :=
  λ s, match m s with
       | (inr x, s') => (inr x, s')
       | (inl e, s') => handler e s'
       end.

Definition lift {A} (r : Thrown + A) : M A := λ s, (r, s).

Definition log (e : Event) : M unit :=
  λ s, (inr tt, {| secure := secure s; auth := auth s;
                   trace := trace s ++ [e] |}).

Definition dispatch (a : AuthAction) : M unit :=
  λ s, (inr tt, {| secure := secure s; auth := reducer (auth s) a;
                   trace := trace s ++ [EvDispatch a] |}).

Declare Scope thunk_scope.
Delimit Scope thunk_scope with thunk.
Notation "'let!' x ':=' m 'in' k" := (bind m (λ x, k))
  (at level 10, x name, m at level 100, k at level 200) : thunk_scope.
Notation "m ';;' k" := (bind m (λ _, k))
  (at level 100, k at level 200, right associativity) : thunk_scope.
Local Open Scope thunk_scope.

(** [await fetch(url, init)] *)
Definition fetch (w : World) (r : Request) : M Response :=
  log (EvFetch r) ;; lift (w r).

(** [await response.json()] *)
Definition json (r : Response) : M JsVal := lift (json_body r).

(** [SecureStore.setItemAsync]: the library refuses a value that is not
    a string before it touches the store. *)
Definition SecureStore_setItemAsync (k : string) (v : JsVal) : M unit :=
  match v with
  | JStr x =>
      λ s, (inr tt, {| secure := <[k := x]> (secure s); auth := auth s;
                       trace := trace s ++ [EvSecureSet k x] |})
  | _ =>
      throw (ErrorObj
        "Invalid value provided to SecureStore. Values must be strings; consider JSON-encoding your values if they are serializable.")
  end.

Definition SecureStore_getItemAsync (k : string) : M (option string) :=
  λ s, (inr (secure s !! k),
        {| secure := secure s; auth := auth s;
           trace := trace s ++ [EvSecureGet k] |}).

Definition SecureStore_deleteItemAsync (k : string) : M unit :=
  λ s, (inr tt, {| secure := delete k (secure s); auth := auth s;
                   trace := trace s ++ [EvSecureDelete k] |}).

(** [throw new Error(v.message || fallback)] *)
Definition throw_message {A} (v : JsVal) (fallback : string) : M A :=
  let! m := lift (get_prop v "message") in
  throw (new_Error (or_else m (JStr fallback))).

(** [error instanceof Error ? error.message : "An unknown error occurred"] *)
Definition reject_value (e : Thrown) : string :=
  match e with
  | ErrorObj message => message
  | NotAnError => "An unknown error occurred"
  end.

(** [createAsyncThunk]: dispatch [pending], run the payload creator,
    then dispatch [fulfilled] with what it returned, or [rejected] with
    the value given to [rejectWithValue] ([inl]), or [rejected] without
    payload when the creator itself threw. *)
Definition createAsyncThunk {P} (pending : AuthAction)
    (fulfilled : P → AuthAction) (rejected : option string → AuthAction)
    (creator : M (string + P)) : M unit :=
  dispatch pending ;;
  let! settled := try_catch (let! r := creator in ret (Some r))
                            (λ _, ret None) in
  match settled with
  | Some (inr p) => dispatch (fulfilled p)
  | Some (inl v) => dispatch (rejected (Some v))
  | None => dispatch (rejected None)
  end.

Definition credentials_json (c : LoginCredentials) : JsVal :=
  JObj [("email", JStr (cred_email c)); ("password", JStr (cred_password c))].

Definition login_request (c : LoginCredentials) : Request :=
  {| url := API_BASE +:+ "/auth/login"; method := "POST";
     headers := [("Content-Type", "application/json")];
     body := Some (credentials_json c) |}.

Definition profile_request (access_token : JsVal) : Request :=
  {| url := API_BASE +:+ "/auth/profile"; method := "GET";
     headers := [("Authorization", "Bearer " +:+ to_string access_token)];
     body := None |}.

(** The payload creator of [loginUser].  Once [setItemAsync] has
    accepted [data.access_token] it is a string, its own string form,
    which is what the returned payload carries. *)
Definition loginUser_creator (w : World) (Credentials : LoginCredentials) :
    M (string + (string * JsVal)) :=
  try_catch
    (let! response := fetch w (login_request Credentials) in
     let! data := json response in
     (if negb (status response =? 201)
      then throw_message data "login Failed"
      else ret tt) ;;
     let! access_token := lift (get_prop data "access_token") in
     SecureStore_setItemAsync "token" access_token ;;
     let! profileResponse := fetch w (profile_request access_token) in
     let! user := json profileResponse in
     (if negb (ok profileResponse)
      then throw_message user "Failed to fetch user profile"
      else ret tt) ;;
     ret (inr (to_string access_token, user)))
    (λ error, ret (inl (reject_value error))).

Definition loginUser (w : World) (Credentials : LoginCredentials) : M unit :=
  createAsyncThunk LoginPending
    (λ p, LoginFulfilled (fst p) (snd p)) LoginRejected
    (loginUser_creator w Credentials).

Definition getAvatarUrl (gender : option string) : string :=
  match gender with
  | Some g =>
      if String.eqb g "male" then
        "https://img.freepik.com/premium-vector/man-with-shirt-that-says-he-is-character_1230457-33052.jpg"
      else if String.eqb g "female" then
        "https://img.freepik.com/free-vector/woman-with-long-dark-hair_1308-176524.jpg?t=st=1751516235~exp=1751519835~hmac=b3eff4bd3939a08a32605c7432621f9893d904a8b42df487c3fb388c497599ab&w=2000"
      else "https://img.freepik.com/free-vector/blue-circle-with-white-user_78370-4707.jpg"
  | None => "https://img.freepik.com/free-vector/blue-circle-with-white-user_78370-4707.jpg"
  end.

(** [{ ...userData, avatar }], the properties in the order the
    sign-up form has them; an absent [gender] is not serialised. *)
Definition register_json (userData : RegisterUserData) (avatar : string) : JsVal :=
  JObj ([("name", JStr (reg_name userData));
         ("email", JStr (reg_email userData))]
        ++ match reg_gender userData with
           | Some g => [("gender", JStr g)]
           | None => []
           end
        ++ [("password", JStr (reg_password userData));
            ("avatar", JStr avatar)]).

Definition register_request (userData : RegisterUserData) : Request :=
  {| url := API_BASE +:+ "/users/"; method := "POST";
     headers := [("Content-type", "application/json")];
     body := Some (register_json userData (getAvatarUrl (reg_gender userData))) |}.

Definition registerUser_creator (w : World) (userData : RegisterUserData) :
    M (string + JsVal) :=
  try_catch
    (let! response := fetch w (register_request userData) in
     let! data := json response in
     (if negb (status response =? 201)
      then throw_message data "Registration failed"
      else ret tt) ;;
     ret (inr data))
    (λ error, ret (inl (reject_value error))).

Definition registerUser (w : World) (userData : RegisterUserData) : M unit :=
  createAsyncThunk RegisterPending RegisterFulfilled RegisterRejected
    (registerUser_creator w userData).

Definition loadToken : M unit :=
  createAsyncThunk LoadTokenPending LoadTokenFulfilled
    (λ _, LoadTokenRejected)
    (let! token := SecureStore_getItemAsync "token" in ret (inr token)).

Definition logoutUser : M unit :=
  createAsyncThunk LogoutUserPending (λ _ : unit, LogoutUserFulfilled)
    (λ _, LogoutUserRejected)
    (SecureStore_deleteItemAsync "token" ;;
     dispatch Logout ;;
     ret (inr tt)).

(** The state of the device after a computation has run. *)
Definition exec {A} (m : M A) (s : Sys) : Sys := snd (m s).

(** *** Redirects

    The effect of [app/index.tsx], once its zero-delay timer has fired:
    no redirect while [loading], else by the truth of [user]. *)

Inductive Route := RouteTableData | RouteLogin.


End Auth.

(** ** Persistence bridge ([tableData.tsx], [addLeadForm.tsx])

    The handlers run against the Redux leads state and AsyncStorage.
    Each takes, as its first argument, the [leads] array its component
    captured at the last render. *)

Module Bridge.
Import Leads.

Record App := mkApp {
  store : LeadsState;
  storage : gmap string string
}.

(** [`leads_${email}`], where a missing [currentUserEmail] reads as
    [null]. *)
Definition getLeadsKey (st : gmap string string) : string :=
  "leads_" +:+ match st !! "currentUserEmail" with
               | Some email => email
               | None => "null"
               end.

Definition dispatch (a : Action) (app : App) : App :=
  {| store := reducer (store app) a; storage := storage app |}.

Definition setItem (k v : string) (app : App) : App :=
  {| store := store app; storage := <[k := v]> (storage app) |}.

(** A string is truthy unless it is empty. *)
Definition nonempty (s : string) : bool := negb (String.eqb s EmptyString).

Definition fetchLeads (app : App) : App :=
  let leadsKey := getLeadsKey (storage app) in
  match storage app !! leadsKey with
  | Some storedLeads =>
      if nonempty storedLeads then
        match Json.parse storedLeads with
        | Some parsed => dispatch (SetLeads parsed) app
        | None => dispatch (SetLeads []) app      (* the [catch] branch *)
        end
      else dispatch (SetLeads []) app
  | None => dispatch (SetLeads []) app
  end.

Definition handleDelete (leads : list Lead) (id : string) (app : App) : App :=
  let leadsKey := getLeadsKey (storage app) in
  let app := dispatch (DeleteLead id) app in
  let updated := List.filter (λ l, negb (has_id id l)) leads in
  setItem leadsKey (Json.stringify updated) app.

(** [{ ...lead, status: newStatus }] *)
Definition with_status (lead : Lead) (newStatus : Status) : Lead :=
  {| id := Leads.id lead; name := name lead; company := company lead;
     email := email lead; phone := phone lead; status := newStatus;
     source := source lead; notes := notes lead |}.

Definition handleStatusChange (leads : list Lead) (lead : Lead)
    (newStatus : Status) (app : App) : App :=
  let leadsKey := getLeadsKey (storage app) in
  let updatedLead := with_status lead newStatus in
  let app := dispatch (UpdateLead updatedLead) app in
  let updated :=
    List.map (λ l, if has_id (Leads.id lead) l then updatedLead else l) leads in
  setItem leadsKey (Json.stringify updated) app.

(** The validated form: the two pickers offer only the values of the
    [Lead] type, and both are required. *)
Record LeadFormData := mkLeadFormData {
  leadName : string;
  f_company : string;
  f_email : string;
  f_phone : string;
  f_status : Status;
  f_source : Source;
  f_notes : string
}.

Definition lead_of_form (id : string) (data : LeadFormData) : Lead :=
  {| id := id; name := leadName data; company := f_company data;
     email := f_email data; phone := f_phone data; status := f_status data;
     source := f_source data; notes := f_notes data |}.

Inductive Toast := LeadUpdated | LeadAdded | ErrorSavingLead.

(** [if (id)]: the route parameter counts when present and not empty. *)
Definition edit_id (id : option string) : option string :=
  match id with
  | Some i => if nonempty i then Some i else None
  | None => None
  end.

(** [onSubmit] of the form.  [id] is the route parameter and [uuid]
    the identifier [uuid.v4()] hands out in add mode.  A [JSON.parse]
    that throws lands in the [catch] clause, after the dispatch. *)
Definition onSubmit (leads : list Lead) (id : option string) (uuid : string)
    (data : LeadFormData) (app : App) : App * Toast :=
  let leadsKey := getLeadsKey (storage app) in
  match edit_id id with
  | Some i =>
      let lead := lead_of_form i data in
      let app := dispatch (UpdateLead lead) app in
      let updated := List.map (λ l, if has_id i l then lead else l) leads in
      (setItem leadsKey (Json.stringify updated) app, LeadUpdated)
  | None =>
      let lead := lead_of_form uuid data in
      let app := dispatch (AddLead lead) app in
      let leadsArr :=
        match storage app !! leadsKey with
        | Some existing =>
            if nonempty existing then Json.parse existing else Some []
        | None => Some []
        end in
      match leadsArr with
      | Some leadsArr =>
          (setItem leadsKey (Json.stringify (leadsArr ++ [lead])) app, LeadAdded)
      | None => (app, ErrorSavingLead)
      end
  end.

(** The effect of the login screen on [token] and [user]: the first
    time a token is seen it records the user's email (when the profile
    has a string one) and leaves for the table; [loginHandled] is the
    screen's ref. *)
Definition Login_effect (st : Auth.AuthState) (loginHandled : bool)
    (storage : gmap string string) :
    bool * gmap string string * option Auth.Route :=
  let token_set :=
    match Auth.token st with Some t => nonempty t | None => false end in
  let '(handled, storage, route) :=
    if token_set && negb loginHandled then
      (true,
       match Auth.user st with
       | Auth.JObj fields =>
           match Auth.obj_get "email" fields with
           | Auth.JStr e =>
               if nonempty e then <["currentUserEmail" := e]> storage
               else storage
           | _ => storage
           end
       | _ => storage
       end,
       Some Auth.RouteTableData)
    else (loginHandled, storage, None) in
  (if negb token_set && negb (Auth.truthy (Auth.user st)) then false else handled,
   storage, route).

End Bridge.

(** ** Sample data *)

Module Examples.
Import Auth.

Definition cred0 : LoginCredentials :=
  {| cred_email := "john@mail.com"; cred_password := "changeme" |}.

Definition sys0 : Sys :=
  {| secure := ∅; auth := initialState; trace := [] |}.

(** The API's answer to wrong credentials. *)
Definition world_unauthorized : World :=
  λ _, inr {| status := 401;
              json_body := inr (JObj [("message", JStr "Unauthorized");
                                      ("statusCode", JNum 401)]) |}.

(** A reply that refuses the login with an empty list of messages. *)
Definition world_empty_message : World :=
  λ _, inr {| status := 400;
              json_body := inr (JObj [("message", JArr []);
                                      ("error", JStr "Bad Request");
                                      ("statusCode", JNum 400)]) |}.

(** The login succeeds, then the network drops before the profile
    arrives. *)
Definition world_profile_down : World :=
  λ r, if String.eqb (url r) (API_BASE +:+ "/auth/login")
       then inr {| status := 201;
                   json_body := inr (JObj [("access_token", JStr "tok123");
                                           ("refresh_token", JStr "ref456")]) |}
       else inl (ErrorObj "Network request failed").



(** The token of an earlier session is still in the secure store. *)
Definition sys_stored_token : Sys :=
  {| secure := {["token" := "tok123"]}; auth := initialState; trace := [] |}.

End Examples.

(** ** Vocabulary of the statements *)

Module Terms.
Import Auth.

(** The run of a thunk ended with the [rejected] action of [loginUser]. *)
Definition login_rejected (s' : Sys) : Prop :=
  ∃ payload, last (trace s') = Some (EvDispatch (LoginRejected payload)).

(** The login request is answered with status 201 and a body whose
    [access_token] is the string [t]. *)
Definition login_accepted (w : World) (c : LoginCredentials) (t : string) : Prop :=
  ∃ resp data,
    w (login_request c) = inr resp ∧ status resp = 201 ∧
    json_body resp = inr data ∧ get_prop data "access_token" = inr (JStr t).

(** The profile request made with token [t] fails: the network drops
    it, its body cannot be read, or its status is not a 2xx one. *)
Definition profile_fails (w : World) (t : string) : Prop :=
  match w (profile_request (JStr t)) with
  | inl _ => True
  | inr r =>
      match json_body r with
      | inl _ => True
      | inr _ => ok r = false
      end
  end.

(** The [message] of a reply body is absent, falsy or a string (or
    the body is [null], where reading it raises the engine's error). *)
Definition plain_message (data : JsVal) : Prop :=
  match get_prop data "message" with
  | inl _ => True
  | inr v => truthy v = false ∨ ∃ t, v = JStr t
  end.

Import Leads Bridge.




End Terms.

Module BridgeExamples.
Import Leads Bridge.

Definition form0 : LeadFormData :=
  {| leadName := "A"; f_company := "B"; f_email := "a@b.com";
     f_phone := "1234567890"; f_status := New; f_source := Website;
     f_notes := EmptyString |}.

Definition lead_a : Lead := lead_of_form "id-1" form0.

Definition lead_b : Lead :=
  {| id := "id-2"; name := "C"; company := "D"; email := "c@d.com";
     phone := "0987654321"; status := Contacted; source := Referral;
     notes := "call back" |}.

(** A second record under the id of [lead_a]. *)
Definition lead_twin : Lead :=
  {| id := "id-1"; name := "Z"; company := "D"; email := "z@d.com";
     phone := "5550000000"; status := Qualified; source := ColdCall;
     notes := EmptyString |}.

Definition app_of (ls : list Lead) : App :=
  {| store := {| leads := ls |};
     storage := {[ "currentUserEmail" := "john@mail.com";
                   "leads_john@mail.com" := Json.stringify ls ]} |}.


End BridgeExamples.

(** ** Session start-up ([app/_layout.tsx]) *)

Module AppInit.
Import Auth.
Local Open Scope thunk_scope.

(** A token counts when present and not empty. *)
Definition token_set (st : AuthState) : option string :=
  match token st with
  | Some t => if negb (String.eqb t EmptyString) then Some t else None
  | None => None
  end.

Definition get_auth : M AuthState := λ s, (inr (auth s), s).

(** [fetchProfile] of [AppInitializer], run with the [token] and
    [user] of the current state: with a token and no user it asks for
    the profile and, on a 2xx reply, dispatches the [fulfilled] action
    of [loginUser] by hand.  The result tells whether the failure toast
    was shown. *)
Definition fetchProfile (w : World) : M bool :=
  let! st := get_auth in
  match token_set st with
  | Some t =>
      if negb (truthy (user st)) then
        try_catch
          (let! response := fetch w (profile_request (JStr t)) in
           let! userData := json response in
           (if ok response then dispatch (LoginFulfilled t userData)
            else ret tt) ;;
           ret false)
          (λ _, ret true)
      else ret false
  | None => ret false
  end.

End AppInit.

(** ** Screen effects ([Login.tsx], [profile.tsx], [SignUp.tsx]) *)

Module Screens.
Import Auth.

(** The error effect of the login screen: a truthy [error] is shown as
    a toast and then cleared. *)
Definition Login_error_effect (st : AuthState) : option string * AuthState :=
  match error st with
  | Some e =>
      if negb (String.eqb e EmptyString)
      then (Some e, reducer st ClearError)
      else (None, st)
  | None => (None, st)
  end.

(** The profile screen leaves for the login screen when there is no
    token. *)
Definition Profile_effect (st : AuthState) : option Route :=
  match AppInit.token_set st with
  | Some _ => None
  | None => Some RouteLogin
  end.

(** [onSubmit] of the sign-up form, as far as the store goes: the
    values without [confirmPassword] are handed to [registerUser];
    [gender] is always a string there, empty when nothing was picked. *)
Definition SignUp_onSubmit (w : World) (name email gender password : string) :
    M unit :=
  registerUser w {| reg_name := name; reg_email := email;
                    reg_password := password; reg_gender := Some gender |}.

(** The sign-up screen's effect on [user]: the first truthy [user] has
    its email (when a non-empty string) recorded as the current one. *)
Definition SignUp_effect (st : AuthState) (signupHandled : bool)
    (storage : gmap string string) : bool * gmap string string :=
  if truthy (user st) && negb signupHandled then
    (true,
     match user st with
     | JObj fields =>
         match obj_get "email" fields with
         | JStr e =>
             if Bridge.nonempty e then <["currentUserEmail" := e]> storage
             else storage
         | _ => storage
         end
     | _ => storage
     end)
  else (signupHandled, storage).

End Screens.

(** ** The leads table ([tableData.tsx]) and the form ([addLeadForm.tsx]) *)

Module Table.
Import Leads.

(** [String.prototype.includes] *)
Fixpoint includes (s q : string) : bool :=
  if String.prefix q s then true
  else match s with
       | EmptyString => false
       | String _ s' => includes s' q
       end.

Section Search.

(** [String.prototype.toLowerCase], which follows the Unicode case
    tables, is left to the engine. *)
Variable toLowerCase : string → string.

Definition matches (search : string) (lead : Lead) : bool :=
  let q := toLowerCase search in
  includes (toLowerCase (name lead)) q
  || includes (toLowerCase (company lead)) q
  || includes (toLowerCase (email lead)) q.

Definition filteredLeads (search : string) (leads : list Lead) : list Lead :=
  List.filter (matches search) leads.

End Search.

Definition itemsPerPage : nat := 10.

(** [xs.slice(from, to)] for indices that are not negative *)
Definition slice {A} (from to : nat) (xs : list A) : list A :=
  take (to - from) (drop from xs).

Definition page_from (page : nat) : nat := (page * itemsPerPage)%nat.

Definition page_to {A} (page : nat) (xs : list A) : nat :=
  Nat.min ((page + 1) * itemsPerPage) (length xs).

Definition paginatedLeads {A} (page : nat) (xs : list A) : list A :=
  slice (page_from page) (page_to page xs) xs.

(** [Math.ceil(n / itemsPerPage)] *)
Definition numberOfPages (n : nat) : nat :=
  ((n + (itemsPerPage - 1)) / itemsPerPage)%nat.

(** The serial number shown in a row. *)
Definition serial (page index : nat) : nat := (page_from page + index + 1)%nat.

(** What the form's effect on [id] and [leads] does to the fields. *)
Inductive FormReset :=
| ResetTo (values : Bridge.LeadFormData)
| ResetEmpty
| NoReset.

Definition form_of_lead (lead : Lead) : Bridge.LeadFormData :=
  {| Bridge.leadName := name lead; Bridge.f_company := company lead;
     Bridge.f_email := email lead; Bridge.f_phone := phone lead;
     Bridge.f_status := status lead; Bridge.f_source := source lead;
     Bridge.f_notes := notes lead |}.

Definition form_reset_effect (id : option string) (leads : list Lead) : FormReset :=
  match Bridge.edit_id id with
  | Some i =>
      match List.find (has_id i) leads with
      | Some lead => ResetTo (form_of_lead lead)
      | None => NoReset
      end
  | None => ResetEmpty
  end.

End Table.

(** ** Stored text that is not an array

    Text whose first character is neither an opening bracket nor white
    space: [JSON.parse] throws on it or gives a value that is not an
    array. *)

Module Corrupt.

Definition is_space (c : ascii) : bool :=
  let n := N_of_ascii c in
  ((n =? 32) || (n =? 9) || (n =? 10) || (n =? 13))%N.

Definition not_array_text (text : string) : bool :=
  match text with
  | EmptyString => false
  | String c _ => negb (Ascii.eqb c "[") && negb (is_space c)
  end.

End Corrupt.

(** ** Reference model of the ids *)

Module Reference.
Import Leads.

(** The ids of the collection, replayed on their own. *)
Definition ids_step (ids : list string) (a : Action) : list string :=
  match a with
  | SetLeads p => List.map id p
  | AddLead p => ids ++ [id p]
  | UpdateLead _ => ids
  | DeleteLead i => List.filter (λ j, negb (String.eqb j i)) ids
  end.

Definition ids (st : LeadsState) : list string := List.map id (leads st).

Definition replay (st : LeadsState) (actions : list Action) : LeadsState :=
  fold_left reducer actions st.

End Reference.

(** * Properties *)

(** ** The leads container *)

Module LeadsFacts.
Import Leads.

Section FindIndex.
Context {A : Type} (p : A → bool).

Lemma findIndex_range (xs : list A) :
  findIndex p xs = -1 ∨ 0 ≤ findIndex p xs < Z.of_nat (length xs).
Proof.
  induction xs as [|x xs IH]; simpl; [by left|].
  destruct (p x); [right; lia|].
  destruct (Z.eqb_spec (findIndex p xs) (-1)); [by left|].
  right. destruct IH; lia.
Qed.

Lemma findIndex_none (xs : list A) :
  Forall (λ x, p x = false) xs → findIndex p xs = -1.
Proof.
  induction 1 as [|x xs Hx _ IH]; simpl; [done|].
  by rewrite Hx, IH.
Qed.

Lemma findIndex_first (pre post : list A) (x : A) :
  Forall (λ y, p y = false) pre → p x = true →
  findIndex p (pre ++ x :: post) = Z.of_nat (length pre).
Proof.
  intros Hpre Hx. induction Hpre as [|y pre Hy _ IH]; simpl.
  - by rewrite Hx.
  - rewrite Hy, IH. destruct (Z.eqb_spec (Z.of_nat (length pre)) (-1)); lia.
Qed.

(** Nothing before the index found satisfies the test. *)
Lemma findIndex_before (xs : list A) (k : nat) (x : A) :
  findIndex p xs ≠ -1 → xs !! k = Some x →
  (Z.of_nat k < findIndex p xs) → p x = false.
Proof.
  revert k. induction xs as [|y xs IH]; intros k Hfound Hk Hlt; [done|].
  simpl in *. destruct (p y) eqn:Hy; [lia|].
  destruct (Z.eqb_spec (findIndex p xs) (-1)) as [|Hne]; [done|].
  destruct k as [|k]; simpl in Hk.
  - by inversion Hk; subst.
  - apply (IH k); [done..|lia].
Qed.

Lemma findIndex_hit (xs : list A) :
  findIndex p xs ≠ -1 →
  ∃ x, xs !! Z.to_nat (findIndex p xs) = Some x ∧ p x = true.
Proof.
  induction xs as [|y xs IH]; simpl; [done|].
  destruct (p y) eqn:Hy; [by exists y|].
  destruct (Z.eqb_spec (findIndex p xs) (-1)) as [|Hne]; [done|].
  intros _. destruct (IH Hne) as (x & Hx & Hp). exists x. split; [|done].
  destruct (findIndex_range xs) as [|Hr]; [done|].
  replace (Z.to_nat (findIndex p xs + 1)) with (S (Z.to_nat (findIndex p xs)))
    by lia.
  done.
Qed.

End FindIndex.

Lemma has_id_true (i : string) (l : Lead) : has_id i l = true ↔ id l = i.
Proof. apply String.eqb_eq. Qed.

Lemma has_id_false (i : string) (l : Lead) : has_id i l = false ↔ id l ≠ i.
Proof. apply String.eqb_neq. Qed.

Lemma Forall_other_id (i : string) (ls : list Lead) :
  Forall (λ y, id y ≠ i) ls → Forall (λ y, has_id i y = false) ls.
Proof.
  intros H. eapply Forall_impl; [exact H|]. intros y Hy. by apply has_id_false.
Qed.

Lemma filter_keeps_all {A} (f : A → bool) (xs : list A) :
  Forall (λ x, f x = true) xs → List.filter f xs = xs.
Proof.
  induction 1 as [|x xs Hx _ IH]; simpl; [done|]. by rewrite Hx, IH.
Qed.

Lemma filter_sublist {A} (f : A → bool) (xs : list A) :
  List.filter f xs `sublist_of` xs.
Proof.
  induction xs as [|x xs IH]; simpl; [constructor|].
  destruct (f x); by constructor.
Qed.

Lemma filter_greatest {A} (f : A → bool) (ks xs : list A) :
  ks `sublist_of` xs → Forall (λ x, f x = true) ks →
  ks `sublist_of` List.filter f xs.
Proof.
  induction 1 as [|x ks xs _ IH|x ks xs _ IH]; intros Hall; simpl.
  - constructor.
  - inversion Hall as [|? ? Hx Hks]; subst. rewrite Hx. constructor. by apply IH.
  - destruct (f x); [constructor|]; by apply IH.
Qed.

(** C4. [updateLead] puts the payload in the place of the first entry
    whose id is the payload's and touches nothing else; when no entry
    has that id the state is returned as it was. *)
Theorem updateLead_replaces_first_match (st : LeadsState) (payload : Lead) :
  (∀ pre x post,
     leads st = pre ++ x :: post →
     Forall (λ y, id y ≠ id payload) pre →
     id x = id payload →
     leads (updateLead st payload) = pre ++ payload :: post)
  ∧ (Forall (λ y, id y ≠ id payload) (leads st) → updateLead st payload = st).
Proof.
  split.
  - intros pre x post Hsplit Hpre Hx. unfold updateLead.
    rewrite Hsplit, (findIndex_first _ pre post x);
      [|by apply Forall_other_id|by apply has_id_true].
    destruct (Z.eqb_spec (Z.of_nat (length pre)) (-1)); [lia|]. simpl.
    rewrite Nat2Z.id.
    rewrite insert_app_r_alt by lia. by rewrite Nat.sub_diag.
  - intros Hnone. unfold updateLead.
    by rewrite findIndex_none by by apply Forall_other_id.
Qed.

Lemma updateLead_replaces_first_match_witness :
  leads (updateLead
           {| leads := [BridgeExamples.lead_b; BridgeExamples.lead_a;
                        BridgeExamples.lead_twin] |}
           (Bridge.with_status BridgeExamples.lead_a Lost))
  = [BridgeExamples.lead_b; Bridge.with_status BridgeExamples.lead_a Lost;
     BridgeExamples.lead_twin].
Proof.
  apply (proj1 (updateLead_replaces_first_match _ _)
           [BridgeExamples.lead_b] BridgeExamples.lead_a
           [BridgeExamples.lead_twin]).
  - reflexivity.
  - constructor; [discriminate|constructor].
  - reflexivity.
Defined.

(** C5. [deleteLead] keeps exactly the entries whose id differs from the
    one given, so every entry with that id is gone; when no entry has
    that id the state is returned as it was. *)
Theorem deleteLead_removes_every_match (st : LeadsState) (i : string) :
  (∀ x, x ∈ leads (deleteLead st i) ↔ x ∈ leads st ∧ id x ≠ i)
  ∧ Forall (λ y, id y ≠ i) (leads (deleteLead st i))
  ∧ (Forall (λ y, id y ≠ i) (leads st) → deleteLead st i = st).
Proof.
  assert (Hmem : ∀ x, x ∈ leads (deleteLead st i) ↔ x ∈ leads st ∧ id x ≠ i).
  { intros x. unfold deleteLead. simpl.
    rewrite !list_elem_of_In, filter_In, negb_true_iff. by rewrite has_id_false. }
  split; [done|]. split.
  - apply Forall_forall. intros x Hx. by apply Hmem in Hx as [_ ?].
  - intros Hnone. destruct st as [ls]. unfold deleteLead. simpl in *. f_equal.
    apply filter_keeps_all. eapply Forall_impl; [exact Hnone|].
    intros y Hy. simpl. by apply negb_true_iff, has_id_false.
Qed.

Lemma deleteLead_removes_every_match_witness :
  deleteLead {| leads := [BridgeExamples.lead_b] |} "id-1"
  = {| leads := [BridgeExamples.lead_b] |}.
Proof.
  apply (deleteLead_removes_every_match {| leads := [BridgeExamples.lead_b] |}).
  constructor; [discriminate|constructor].
Defined.

(** C8. [addLead] puts the lead after the last entry, whatever its id:
    the collection grows by one, the new last entry is the lead, and
    every earlier entry stays at its index. *)
Theorem addLead_appends (st : LeadsState) (payload : Lead) :
  length (leads (addLead st payload)) = S (length (leads st))
  ∧ leads (addLead st payload) !! length (leads st) = Some payload
  ∧ (∀ k x, leads st !! k = Some x → leads (addLead st payload) !! k = Some x).
Proof.
  unfold addLead. simpl. split; [|split].
  - rewrite length_app. simpl. lia.
  - by rewrite lookup_app_r, Nat.sub_diag.
  - intros k x Hk. by apply lookup_app_l_Some.
Qed.

Lemma addLead_appends_witness :
  leads (addLead {| leads := [BridgeExamples.lead_a] |} BridgeExamples.lead_twin)
    !! 0%nat
  = Some BridgeExamples.lead_a.
Proof.
  apply (addLead_appends {| leads := [BridgeExamples.lead_a] |}).
  reflexivity.
Defined.

(** C10. [updateLead] keeps the length of the collection and leaves
    every entry whose id is not the payload's at its index, unchanged;
    what [deleteLead] returns is the collection with entries struck
    out, the survivors in their original order, and is the largest such
    list without the deleted id. *)
Theorem update_delete_frame (st : LeadsState) (payload : Lead) (i : string) :
  length (leads (updateLead st payload)) = length (leads st)
  ∧ (∀ k x, leads st !! k = Some x → id x ≠ id payload →
            leads (updateLead st payload) !! k = Some x)
  ∧ leads (deleteLead st i) `sublist_of` leads st
  ∧ (∀ ks, ks `sublist_of` leads st → Forall (λ y, id y ≠ i) ks →
           ks `sublist_of` leads (deleteLead st i)).
Proof.
  split; [|split; [|split]].
  - unfold updateLead. destruct (negb _); [simpl; apply length_insert|done].
  - intros k x Hk Hne. unfold updateLead.
    destruct (Z.eqb_spec (findIndex (has_id (id payload)) (leads st)) (-1))
      as [|Hfound]; [done|]. simpl.
    destruct (findIndex_hit _ _ Hfound) as (y & Hy & Hid).
    rewrite list_lookup_insert_ne; [done|].
    intros <-. rewrite Hy in Hk. inversion Hk; subst.
    by apply has_id_true in Hid.
  - apply filter_sublist.
  - intros ks Hsub Hall. apply filter_greatest; [done|].
    eapply Forall_impl; [exact Hall|]. intros y Hy. simpl.
    by apply negb_true_iff, has_id_false.
Qed.

Lemma update_delete_frame_witness :
  leads (updateLead
           {| leads := [BridgeExamples.lead_b; BridgeExamples.lead_a] |}
           (Bridge.with_status BridgeExamples.lead_a Lost)) !! 0%nat
  = Some BridgeExamples.lead_b.
Proof.
  apply (update_delete_frame
           {| leads := [BridgeExamples.lead_b; BridgeExamples.lead_a] |}
           (Bridge.with_status BridgeExamples.lead_a Lost) "id-1").
  - reflexivity.
  - discriminate.
Defined.

End LeadsFacts.
(** ** The JSON text of a leads array *)

Module JsonFacts.
Import Leads Json.

Lemma append_nil (b : string) : EmptyString +:+ b = b.
Proof. reflexivity. Qed.

Lemma append_cons (x : ascii) (a b : string) :
  String x a +:+ b = String x (a +:+ b).
Proof. reflexivity. Qed.

Lemma append_assoc (a b c : string) : (a +:+ b) +:+ c = a +:+ (b +:+ c).
Proof.
  induction a as [|x a IH]; [done|]. by rewrite !append_cons, IH.
Qed.

Lemma length_append (a b : string) :
  String.length (a +:+ b) = (String.length a + String.length b)%nat.
Proof.
  induction a as [|x a IH]; [done|]. rewrite append_cons. simpl. by rewrite IH.
Qed.

Lemma parse_chars_escape_char (c : ascii) (r : string) :
  parse_chars (escape_char c +:+ r) = cons_char c (parse_chars r).
Proof.
  destruct c as [[] [] [] [] [] [] [] []]; reflexivity.
Qed.

Lemma parse_chars_escape (s r : string) :
  parse_chars (escape s +:+ String DQ r) = Some (s, r).
Proof.
  induction s as [|c s IH].
  - reflexivity.
  - simpl escape. by rewrite append_assoc, parse_chars_escape_char, IH.
Qed.

Lemma parse_string_quote (s r : string) :
  parse_string (quote s +:+ r) = Some (s, r).
Proof.
  unfold quote, str1. rewrite append_cons, append_assoc, append_cons, append_nil.
  unfold parse_string. rewrite Ascii.eqb_refl. apply parse_chars_escape.
Qed.

Lemma expect_append (pre r : string) : expect pre (pre +:+ r) = Some r.
Proof.
  induction pre as [|c pre IH]; [done|].
  rewrite append_cons. simpl. by rewrite Ascii.eqb_refl.
Qed.

Lemma parse_prop_quote (k v r : string) :
  parse_prop k (prop k +:+ quote v +:+ r) = Some (v, r).
Proof.
  unfold parse_prop. rewrite expect_append. simpl. apply parse_string_quote.
Qed.

Lemma status_of_text_status (st : Status) : status_of_text (status_text st) = Some st.
Proof. by destruct st. Qed.

Lemma source_of_text_source (so : Source) : source_of_text (source_text so) = Some so.
Proof. by destruct so. Qed.

Lemma parse_lead_stringify (l : Lead) (r : string) :
  parse_lead (stringify_lead l +:+ r) = Some (l, r).
Proof.
  unfold stringify_lead, parse_lead. rewrite !append_assoc.
  repeat first [ rewrite expect_append | rewrite parse_prop_quote
               | progress cbn [mbind option_bind] ].
  rewrite status_of_text_status, source_of_text_source. cbn [mbind option_bind].
  by destruct l.
Qed.

Lemma parse_elems_stringify (ls : list Lead) (fuel : nat) :
  (length ls < fuel)%nat → parse_elems fuel (stringify_elems ls) = Some ls.
Proof.
  revert fuel. induction ls as [|l ls IH]; intros [|fuel] Hfuel; simpl in Hfuel;
    try lia; [done|].
  simpl stringify_elems. rewrite append_cons, append_nil.
  cbn [parse_elems]. change (Ascii.eqb "," "]") with false.
  change (Ascii.eqb "," ",") with true. cbn match.
  rewrite parse_lead_stringify. cbn [mbind option_bind].
  rewrite IH by lia. done.
Qed.

Lemma length_stringify_elems (ls : list Lead) :
  (length ls < String.length (stringify_elems ls))%nat.
Proof.
  induction ls as [|l ls IH]; simpl; [lia|].
  rewrite !length_append. simpl. lia.
Qed.

Lemma stringify_lead_shape (l : Lead) (r : string) :
  ∃ rest, stringify_lead l +:+ r = String "{" (String DQ rest).
Proof. eexists. reflexivity. Qed.

Lemma parse_stringify (ls : list Lead) : parse (stringify ls) = Some ls.
Proof.
  destruct ls as [|l ls]; [done|].
  simpl stringify. rewrite append_cons, append_nil. cbn [parse].
  change (Ascii.eqb "[" "[") with true. cbn match.
  destruct (stringify_lead_shape l (stringify_elems ls)) as [rest Hshape].
  replace (String.eqb (stringify_lead l +:+ stringify_elems ls) "]") with false
    by by rewrite Hshape.
  rewrite parse_lead_stringify. cbn [mbind option_bind].
  rewrite parse_elems_stringify; [done|].
  pose proof (length_stringify_elems ls). simpl. rewrite length_append. lia.
Qed.

Lemma stringify_nonempty (ls : list Lead) : stringify ls ≠ EmptyString.
Proof. by destruct ls. Qed.

Lemma stringify_inj (ls ls' : list Lead) : stringify ls = stringify ls' → ls = ls'.
Proof.
  intros H. apply (f_equal parse) in H. rewrite !parse_stringify in H. congruence.
Qed.

End JsonFacts.

(** ** The auth container *)

Module AuthFacts.
Import Auth Terms.

Local Open Scope thunk_scope.

(** Unfold the effect layer down to pairs of outcome and device. *)
Ltac run :=
  unfold exec, loginUser, logoutUser, loadToken, createAsyncThunk,
    loginUser_creator, throw_message, fetch, json, log, lift, dispatch,
    try_catch, bind, ret, throw in *;
  cbn [fst snd secure auth trace] in *.

Lemma last_snoc_eq {A} (xs : list A) (x y : A) :
  last (xs ++ [x]) = Some y → x = y.
Proof. rewrite last_snoc. congruence. Qed.

Lemma app_snoc_assoc {A} (xs : list A) (x : A) (ys : list A) :
  (xs ++ [x]) ++ ys = xs ++ x :: ys.
Proof. by rewrite <- app_assoc. Qed.

(** C7. [logoutUser] removes the [token] entry of the secure store and
    then dispatches [logout], after which [user] and [token] are null;
    [loading] and [error] keep their values, and the effects of the run
    are the four listed, none of them a request to the network. *)
Theorem logoutUser_deletes_then_clears (s : Sys) :
  fst (logoutUser s) = inr tt
  ∧ secure (exec logoutUser s) = delete "token" (secure s)
  ∧ secure (exec logoutUser s) !! "token" = None
  ∧ auth (exec logoutUser s) =
      {| user := JNull; token := None;
         loading := loading (auth s); error := error (auth s) |}
  ∧ trace (exec logoutUser s) =
      trace s ++ [EvDispatch LogoutUserPending; EvSecureDelete "token";
                  EvDispatch Logout; EvDispatch LogoutUserFulfilled].
Proof.
  run. unfold SecureStore_deleteItemAsync. simpl.
  repeat split; try done.
  - apply lookup_delete_eq.
  - by rewrite !app_snoc_assoc.
Qed.

(** The payload creator of [loginUser] catches everything: it returns,
    with a payload or a rejection value, leaves the Redux state alone
    and only adds to the log. *)
Lemma loginUser_creator_returns (w : World) (c : LoginCredentials) (s : Sys) :
  ∃ r evs sec,
    loginUser_creator w c s =
      (inr r, {| secure := sec; auth := auth s; trace := trace s ++ evs |})
    ∧ (∀ t u, r = inr (t, u) → sec !! "token" = Some t).
Proof.
  run. destruct s as [sec au tr]. simpl.
  destruct (w (login_request c)) as [e|resp]; [by eexists _, [_], _|].
  destruct (json_body resp) as [e|data]; [by eexists _, [_], _|].
  destruct (status resp =? 201); simpl;
    [|destruct (get_prop data "message"); by eexists _, [_], _].
  destruct (get_prop data "access_token") as [e|tok]; [by eexists _, [_], _|].
  destruct tok; simpl; try by eexists _, [_], _.
  destruct (w _) as [e|presp]; simpl;
    [eexists _, [_; _; _], _; by rewrite !app_snoc_assoc|].
  destruct (json_body presp) as [e|u];
    [eexists _, [_; _; _], _; by rewrite !app_snoc_assoc|].
  destruct (ok presp); simpl.
  - eexists _, [_; _; _], _. rewrite !app_snoc_assoc. split; [done|].
    intros t' u' [= <- <-]. apply lookup_insert_eq.
  - destruct (get_prop u "message");
      eexists _, [_; _; _], _; by rewrite !app_snoc_assoc.
Qed.

(** C9. When the login is answered with status 201 and a token but
    the profile request then fails, the run of [loginUser] has already
    written that token under [token] in the secure store: the write is
    logged before the profile request, the thunk ends rejected, [error]
    is set, and [user] and [token] in memory are what they were. *)
Theorem login_token_written_before_profile_check
    (w : World) (c : LoginCredentials) (t : string) (s : Sys) :
  login_accepted w c t → profile_fails w t →
  secure (exec (loginUser w c) s) !! "token" = Some t
  ∧ user (auth (exec (loginUser w c) s)) = user (auth s)
  ∧ token (auth (exec (loginUser w c) s)) = token (auth s)
  ∧ ∃ m, error (auth (exec (loginUser w c) s)) = Some m
         ∧ trace (exec (loginUser w c) s) =
             trace s ++ [EvDispatch LoginPending; EvFetch (login_request c);
                         EvSecureSet "token" t;
                         EvFetch (profile_request (JStr t));
                         EvDispatch (LoginRejected (Some m))].
Proof.
  intros (resp & data & Hw & Hst & Hbody & Htok) Hprof.
  unfold profile_fails in Hprof. run.
  rewrite Hw, Hbody, Hst, Htok. simpl.
  destruct (w (profile_request (JStr t))) as [e|presp]; simpl.
  { rewrite lookup_insert_eq. repeat split; try done.
    eexists. split; [done|]. by rewrite !app_snoc_assoc. }
  destruct (json_body presp) as [e|u]; simpl.
  { rewrite lookup_insert_eq. repeat split; try done.
    eexists. split; [done|]. by rewrite !app_snoc_assoc. }
  rewrite Hprof. simpl.
  destruct (get_prop u "message"); simpl;
    rewrite lookup_insert_eq; (repeat split; try done);
    eexists; (split; [done|]); by rewrite !app_snoc_assoc.
Qed.

Lemma login_token_written_before_profile_check_witness :
  secure (exec (loginUser Examples.world_profile_down Examples.cred0)
               Examples.sys0) !! "token" = Some "tok123".
Proof.
  apply (login_token_written_before_profile_check
           Examples.world_profile_down Examples.cred0 "tok123" Examples.sys0).
  - eexists _, _. repeat split; reflexivity.
  - exact I.
Defined.

Lemma loginUser_unfold (w : World) (c : LoginCredentials) (s : Sys) :
  loginUser w c s =
    match loginUser_creator w c (dispatch LoginPending s).2 with
    | (inr (inr p), s') => dispatch (LoginFulfilled p.1 p.2) s'
    | (inr (inl v), s') => dispatch (LoginRejected (Some v)) s'
    | (inl _, s') => dispatch (LoginRejected None) s'
    end.
Proof.
  unfold loginUser, createAsyncThunk, bind, try_catch, ret.
  unfold dispatch at 1 5. simpl.
  by destruct (loginUser_creator w c _) as [[e|[v|p]] s'].
Qed.

Lemma classic_plain (data : JsVal) : plain_message data ∨ ¬ plain_message data.
Proof.
  unfold plain_message. destruct (get_prop data "message") as [e|v]; [by left|].
  destruct (truthy v) eqn:Hv; [|by left; left].
  destruct v; try (right; intros [?|[? ?]]; congruence).
  left. right. by eexists.
Qed.

Lemma type_error_nonempty (k what : string) :
  reject_value (type_error k what) ≠ EmptyString.
Proof. done. Qed.

Lemma plain_message_nonempty (data : JsVal) (fallback : string) (s : Sys) :
  plain_message data → fallback ≠ EmptyString →
  ∃ m, @throw_message unit data fallback s = (inl (ErrorObj m), s)
       ∧ m ≠ EmptyString.
Proof.
  unfold plain_message, throw_message, bind, lift, throw.
  destruct (get_prop data "message") as [e|v] eqn:Hget.
  - intros _ _. destruct data; simplify_eq/=; by eexists.
  - intros [Hfalsy|[t ->]] Hfb; unfold or_else.
    + rewrite Hfalsy. by exists fallback.
    + simpl. destruct (String.eqb_spec t EmptyString); simpl; by eexists.
Qed.

(** What a failing login leaves behind.  A run of [loginUser] that
    ends rejected leaves [user] and
    [token] as they were, clears [loading] and sets [error] to the
    rejection message.  When the request fails or its body cannot be
    read, the message is the thrown one (a fixed text if what was
    thrown is not an [Error]) and nothing is stored.  When the login is refused
    (a reply whose status is not 201) the effects are the request and
    the two dispatches, so no key of the secure store is written; the
    message is not empty if the reply's [message] is absent, falsy or a
    string; and a [token] that was null stays null, so the login screen
    writes no key either. *)
Theorem loginUser_failure_sets_error (w : World) (c : LoginCredentials) (s : Sys) :
  (∀ payload,
     last (trace (exec (loginUser w c) s)) = Some (EvDispatch (LoginRejected payload)) →
     ∃ m, payload = Some m
          ∧ auth (exec (loginUser w c) s) =
              {| user := user (auth s); token := token (auth s);
                 loading := false; error := Some m |})
  ∧ (∀ e, w (login_request c) = inl e
          ∨ (∃ resp, w (login_request c) = inr resp ∧ json_body resp = inl e) →
       login_rejected (exec (loginUser w c) s)
       ∧ error (auth (exec (loginUser w c) s)) = Some (reject_value e)
       ∧ secure (exec (loginUser w c) s) = secure s)
  ∧ (∀ resp data,
       w (login_request c) = inr resp → json_body resp = inr data →
       status resp ≠ 201 →
       ∃ m, trace (exec (loginUser w c) s) =
              trace s ++ [EvDispatch LoginPending; EvFetch (login_request c);
                          EvDispatch (LoginRejected (Some m))]
            ∧ error (auth (exec (loginUser w c) s)) = Some m
            ∧ secure (exec (loginUser w c) s) = secure s
            ∧ (plain_message data → m ≠ EmptyString)
            ∧ (token (auth s) = None →
               token (auth (exec (loginUser w c) s)) = None
               ∧ ∀ handled st,
                   (Bridge.Login_effect (auth (exec (loginUser w c) s)) handled st).1.2
                   = st)).
Proof.
  split; [|split].
  - intros payload. unfold exec. rewrite loginUser_unfold.
    destruct (loginUser_creator_returns w c (dispatch LoginPending s).2)
      as (r & evs & sec & -> & _).
    unfold dispatch. destruct r as [m|[t u]]; simpl.
    + intros Hlast%last_snoc_eq. exists m. split; congruence.
    + by intros Hlast%last_snoc_eq.
  - intros e [Hw|(resp & Hw & Hbody)]; unfold login_rejected; run;
      rewrite Hw; [|rewrite Hbody]; simpl;
      (split; [|done]); eexists; apply last_snoc.
  - intros resp data Hw Hbody Hst. apply Z.eqb_neq in Hst.
    unfold exec, loginUser, createAsyncThunk, loginUser_creator, fetch, json,
      log, lift, dispatch, try_catch, bind, ret. cbn [fst snd secure auth trace].
    rewrite Hw, Hbody, Hst. cbn [negb].
    destruct (classic_plain data) as [Hplain|Hodd].
    + match goal with |- context [throw_message data ?fb ?s0] =>
        destruct (plain_message_nonempty data fb s0 Hplain) as (m & -> & Hm);
          [done|]
      end.
      simpl. exists m. rewrite !app_snoc_assoc.
      do 3 (split; [done|]). split; [done|].
      intros Htok. split; [done|]. intros handled st.
      unfold Bridge.Login_effect. simpl. rewrite Htok. simpl.
      by destruct (truthy (user (auth s))).
    + unfold throw_message, bind, lift, throw.
      destruct (get_prop data "message") as [e|v] eqn:Hget;
        [by destruct Hodd; unfold plain_message; rewrite Hget|].
      simpl. eexists. rewrite !app_snoc_assoc.
      do 3 (split; [done|]). split; [done|].
      intros Htok. split; [done|]. intros handled st.
      unfold Bridge.Login_effect. simpl. rewrite Htok. simpl.
      by destruct (truthy (user (auth s))).
Qed.

Lemma loginUser_failure_sets_error_witness :
  ∃ m, error (auth (exec (loginUser Examples.world_unauthorized Examples.cred0)
                         Examples.sys0)) = Some m
       ∧ m ≠ EmptyString.
Proof.
  destruct (loginUser_failure_sets_error
              Examples.world_unauthorized Examples.cred0 Examples.sys0)
    as (_ & _ & Hrefused).
  destruct (Hrefused _ _ eq_refl eq_refl) as (m & _ & Herr & _ & Hm & _).
  - simpl. lia.
  - exists m. split; [exact Herr|]. apply Hm. right. by eexists.
Defined.

(** When every exception the network raises has a non-empty text and
    every reply body has a plain [message], a run that ends rejected
    sets [error] to a non-empty string, whichever step failed: the
    request, the body, a refused login, a reply with status 201 but no
    string token, or the profile. *)
Lemma rejected_login_error_nonempty (w : World) (c : LoginCredentials) (s : Sys) :
  (∀ req e, w req = inl e → reject_value e ≠ EmptyString) →
  (∀ req r e, w req = inr r → json_body r = inl e →
              reject_value e ≠ EmptyString) →
  (∀ req r data, w req = inr r → json_body r = inr data → plain_message data) →
  ∀ m, last (trace (exec (loginUser w c) s))
         = Some (EvDispatch (LoginRejected (Some m))) →
       m ≠ EmptyString.
Proof.
  intros Hnet Hbody Hplain m.
  unfold exec, loginUser, createAsyncThunk, loginUser_creator, fetch, json,
    log, lift, dispatch, try_catch, bind, ret. cbn [fst snd secure auth trace].
  destruct (w (login_request c)) as [e|resp] eqn:Hw; simpl.
  { intros [= <-]%last_snoc_eq. by eapply Hnet. }
  destruct (json_body resp) as [e|data] eqn:Hb; simpl.
  { intros [= <-]%last_snoc_eq. by eapply Hbody. }
  destruct (status resp =? 201); cbn [negb].
  2:{ match goal with |- context [throw_message data ?fb ?s0] =>
        destruct (plain_message_nonempty data fb s0) as (m' & -> & Hm);
          [by eapply Hplain|done|]
      end.
      simpl. by intros [= <-]%last_snoc_eq. }
  unfold throw. simpl.
  destruct (get_prop data "access_token") as [e|tok] eqn:Htok; simpl.
  { intros [= <-]%last_snoc_eq. destruct data; simplify_eq/=; done. }
  destruct tok; simpl; try by intros [= <-]%last_snoc_eq.
  destruct (w (profile_request (JStr s0))) as [e|presp] eqn:Hpw; simpl.
  { intros [= <-]%last_snoc_eq. by eapply Hnet. }
  destruct (json_body presp) as [e|u] eqn:Hpb; simpl.
  { intros [= <-]%last_snoc_eq. by eapply Hbody. }
  destruct (ok presp); cbn [negb]; simpl.
  { by intros [=]%last_snoc_eq. }
  match goal with |- context [throw_message u ?fb ?s1] =>
    destruct (plain_message_nonempty u fb s1) as (m' & -> & Hm);
      [by eapply Hplain|done|]
  end.
  simpl. by intros [= <-]%last_snoc_eq.
Qed.

(** C3. The failing input: a login refused with status 400 and a body
    whose [message] is an empty array.  The run ends rejected with
    [user] and [token] unchanged and nothing stored, but the empty
    array is truthy, so the fallback text is not used, and its string
    form is empty: [error] is the empty string, not a non-empty
    message, and the login screen's error effect shows no toast. *)
Theorem loginUser_error_can_be_empty :
  login_rejected (exec (loginUser Examples.world_empty_message Examples.cred0)
                       Examples.sys0)
  ∧ auth (exec (loginUser Examples.world_empty_message Examples.cred0)
               Examples.sys0)
    = {| user := JNull; token := None; loading := false;
         error := Some EmptyString |}
  ∧ secure (exec (loginUser Examples.world_empty_message Examples.cred0)
                 Examples.sys0) = ∅
  ∧ (¬ ∃ m, error (auth (exec (loginUser Examples.world_empty_message
                                         Examples.cred0) Examples.sys0)) = Some m
            ∧ m ≠ EmptyString)
  ∧ (Screens.Login_error_effect
       (auth (exec (loginUser Examples.world_empty_message Examples.cred0)
                   Examples.sys0))).1 = None.
Proof.
  split; [eexists; reflexivity|]. split; [reflexivity|]. split; [reflexivity|].
  split; [|reflexivity].
  intros (m & Herr & Hm). vm_compute in Herr. congruence.
Qed.




End AuthFacts.

(** ** The persistence bridge *)

Module BridgeFacts.
Import Leads Bridge Terms.



Lemma getLeadsKey_email (st : gmap string string) (email : string) :
  st !! "currentUserEmail" = Some email → getLeadsKey st = "leads_" +:+ email.
Proof. intros H. unfold getLeadsKey. by rewrite H. Qed.

Lemma nonempty_stringify (ls : list Lead) : nonempty (Json.stringify ls) = true.
Proof. by destruct ls. Qed.

(** C6. Parsing the serialisation of a collection gives the collection
    back, and [fetchLeads] on a store that holds that serialisation
    sets the in-memory collection to it, entry for entry in the same
    order. *)
Theorem stringify_setLeads_roundtrip (ls : list Lead) :
  Json.parse (Json.stringify ls) = Some ls
  ∧ ∀ app, storage app !! getLeadsKey (storage app) = Some (Json.stringify ls) →
           fetchLeads app = {| store := {| leads := ls |}; storage := storage app |}.
Proof.
  split; [apply JsonFacts.parse_stringify|].
  intros app Hstored. unfold fetchLeads.
  by rewrite Hstored, nonempty_stringify, JsonFacts.parse_stringify.
Qed.

Lemma stringify_setLeads_roundtrip_witness :
  leads (store (fetchLeads
    (BridgeExamples.app_of [BridgeExamples.lead_a; BridgeExamples.lead_b])))
  = [BridgeExamples.lead_a; BridgeExamples.lead_b].
Proof.
  destruct (stringify_setLeads_roundtrip
              [BridgeExamples.lead_a; BridgeExamples.lead_b]) as [_ Hfetch].
  rewrite (Hfetch (BridgeExamples.app_of
                     [BridgeExamples.lead_a; BridgeExamples.lead_b]));
    reflexivity.
Defined.






End BridgeFacts.

(** ** More on the leads container *)

Module LeadsMore.
Import Leads Reference.

Lemma findIndex_by_ids (i : string) (xs ys : list Lead) :
  List.map id xs = List.map id ys →
  findIndex (has_id i) xs = findIndex (has_id i) ys.
Proof.
  revert ys. induction xs as [|x xs IH]; intros [|y ys] Hids; try done.
  simpl in *. injection Hids as Hxy Hrest. rewrite (IH ys Hrest).
  unfold has_id. by rewrite Hxy.
Qed.

Lemma updateLead_ids_list (ls : list Lead) (payload : Lead) :
  List.map id (leads (updateLead {| leads := ls |} payload)) = List.map id ls.
Proof.
  unfold updateLead. simpl.
  destruct (Z.eqb_spec (findIndex (has_id (id payload)) ls) (-1)) as [|Hfound];
    [done|]. simpl.
  destruct (LeadsFacts.findIndex_hit _ _ Hfound) as (x & Hx & Hid).
  apply LeadsFacts.has_id_true in Hid.
  change (List.map id) with (fmap (M:=list) id).
  rewrite list_fmap_insert. apply list_insert_id.
  by rewrite list_lookup_fmap, Hx, <- Hid.
Qed.

(** X1. [updateLead] leaves the id at every position as it was: whatever
    the payload, the sequence of ids of the collection does not
    change. *)
Theorem updateLead_keeps_ids (st : LeadsState) (payload : Lead) :
  ids (updateLead st payload) = ids st.
Proof. destruct st as [ls]. apply updateLead_ids_list. Qed.

(** X2. Pairwise distinct ids stay distinct under [updateLead] and
    [deleteLead]; under [addLead] they do exactly when the new id is
    not yet in the collection. *)
Theorem distinct_ids_invariant (st : LeadsState) (payload : Lead) (i : string) :
  (NoDup (ids st) → NoDup (ids (updateLead st payload)))
  ∧ (NoDup (ids st) → NoDup (ids (deleteLead st i)))
  ∧ (NoDup (ids (addLead st payload)) ↔ NoDup (ids st) ∧ id payload ∉ ids st).
Proof.
  split; [|split].
  - unfold ids. destruct st as [ls]. by rewrite updateLead_ids_list.
  - unfold ids, deleteLead. simpl. intros Hnd.
    eapply sublist_NoDup; [exact Hnd|].
    change (List.map id) with (fmap (M:=list) id).
    apply fmap_sublist, LeadsFacts.filter_sublist.
  - unfold ids, addLead. simpl. rewrite map_app. simpl.
    change (List.map id (leads st)) with (id <$> leads st).
    rewrite NoDup_app. split.
    + intros (Hnd & Hnew & _). split; [done|]. intros Hin.
      apply (Hnew _ Hin). by apply list_elem_of_singleton.
    + intros [Hnd Hnew]. split; [done|]. split; [|apply NoDup_singleton].
      intros x Hx ->%list_elem_of_singleton. done.
Qed.

Lemma distinct_ids_invariant_witness :
  NoDup (ids (deleteLead
                {| leads := [BridgeExamples.lead_a; BridgeExamples.lead_b] |}
                "id-1")).
Proof.
  apply (distinct_ids_invariant
           {| leads := [BridgeExamples.lead_a; BridgeExamples.lead_b] |}
           BridgeExamples.lead_a "id-1").
  unfold ids. simpl. apply NoDup_cons. split.
  - intros Hin. apply list_elem_of_singleton in Hin. discriminate Hin.
  - apply NoDup_singleton.
Defined.

Lemma filter_app_bool {A} (f : A → bool) (xs ys : list A) :
  List.filter f (xs ++ ys) = List.filter f xs ++ List.filter f ys.
Proof.
  induction xs as [|x xs IH]; simpl; [done|]. destruct (f x); simpl; by rewrite IH.
Qed.

(** X3. Deleting by the id of a lead just added also removes the lead:
    the result is the deletion applied to the earlier collection, and
    is that collection itself when the id was new. *)
Theorem add_then_delete (st : LeadsState) (payload : Lead) :
  deleteLead (addLead st payload) (id payload) = deleteLead st (id payload)
  ∧ (Forall (λ y, id y ≠ id payload) (leads st) →
     deleteLead (addLead st payload) (id payload) = st).
Proof.
  assert (Hdel : deleteLead (addLead st payload) (id payload)
                 = deleteLead st (id payload)).
  { unfold deleteLead, addLead. simpl. rewrite filter_app_bool. simpl.
    unfold has_id at 2. rewrite String.eqb_refl. simpl. by rewrite app_nil_r. }
  split; [done|]. intros Hnew. rewrite Hdel. destruct st as [ls].
  unfold deleteLead. simpl in *. f_equal. apply LeadsFacts.filter_keeps_all.
  eapply Forall_impl; [exact Hnew|]. intros y Hy. simpl.
  by apply negb_true_iff, LeadsFacts.has_id_false.
Qed.

Lemma add_then_delete_witness :
  deleteLead (addLead {| leads := [BridgeExamples.lead_b] |} BridgeExamples.lead_a)
             "id-1"
  = {| leads := [BridgeExamples.lead_b] |}.
Proof.
  apply (add_then_delete {| leads := [BridgeExamples.lead_b] |}
                         BridgeExamples.lead_a).
  constructor; [discriminate|constructor].
Defined.

(** X4. After a lead has been deleted, an update that carries its id finds
    nothing to replace. *)
Theorem update_after_delete_is_void (st : LeadsState) (payload : Lead) :
  updateLead (deleteLead st (id payload)) payload = deleteLead st (id payload).
Proof.
  unfold updateLead. rewrite LeadsFacts.findIndex_none; [done|].
  unfold deleteLead. simpl. apply Forall_forall. intros x Hx.
  apply list_elem_of_In, filter_In in Hx as [_ Hx].
  by apply negb_true_iff in Hx.
Qed.

(** X5. Of two updates under one id the later one wins: the result is as
    if only the second had been made. *)
Theorem later_update_wins (st : LeadsState) (first second : Lead) :
  id first = id second →
  updateLead (updateLead st first) second = updateLead st second.
Proof.
  intros Hid. destruct st as [ls]. unfold updateLead at 1 3. simpl.
  rewrite (findIndex_by_ids (id second) _ ls) by apply updateLead_ids_list.
  destruct (Z.eqb_spec (findIndex (has_id (id second)) ls) (-1)) as [Hnone|Hfound];
    simpl.
  - unfold updateLead. simpl. by rewrite Hid, Hnone.
  - unfold updateLead. simpl. rewrite Hid.
    destruct (Z.eqb_spec (findIndex (has_id (id second)) ls) (-1)); [done|].
    simpl. by rewrite list_insert_insert_eq.
Qed.

Lemma later_update_wins_witness :
  updateLead (updateLead {| leads := [BridgeExamples.lead_a] |}
                         BridgeExamples.lead_twin) BridgeExamples.lead_a
  = {| leads := [BridgeExamples.lead_a] |}.
Proof.
  rewrite (later_update_wins {| leads := [BridgeExamples.lead_a] |}
             BridgeExamples.lead_twin BridgeExamples.lead_a); reflexivity.
Defined.

Lemma find_is_findIndex (i : string) (ls : list Lead) :
  List.find (has_id i) ls =
    if findIndex (has_id i) ls =? -1 then None
    else ls !! Z.to_nat (findIndex (has_id i) ls).
Proof.
  induction ls as [|x ls IH]; [done|]. simpl.
  destruct (has_id i x); [done|]. rewrite IH.
  pose proof (LeadsFacts.findIndex_range (has_id i) ls) as Hr.
  destruct (Z.eqb_spec (findIndex (has_id i) ls) (-1)) as [|Hne]; [done|].
  destruct (Z.eqb_spec (findIndex (has_id i) ls + 1) (-1)); [lia|].
  by replace (Z.to_nat (findIndex (has_id i) ls + 1))
    with (S (Z.to_nat (findIndex (has_id i) ls))) by lia.
Qed.

(** X6. Looking a lead up by id after an update gives the payload when
    the id is in the collection, and still nothing when it is not. *)
Theorem find_after_update (st : LeadsState) (payload : Lead) :
  List.find (has_id (id payload)) (leads (updateLead st payload))
  = match List.find (has_id (id payload)) (leads st) with
    | Some _ => Some payload
    | None => None
    end.
Proof.
  destruct st as [ls]. rewrite !find_is_findIndex.
  rewrite (findIndex_by_ids (id payload) _ ls) by apply updateLead_ids_list.
  unfold updateLead. simpl.
  destruct (Z.eqb_spec (findIndex (has_id (id payload)) ls) (-1)) as [|Hfound];
    [done|]. simpl.
  destruct (LeadsFacts.findIndex_hit _ _ Hfound) as (x & Hx & _). rewrite Hx.
  apply list_lookup_insert_eq. by apply lookup_lt_Some in Hx.
Qed.

(** X7. A lead added under an id that is already taken is out of reach: a
    look-up by that id still gives the earlier entry, and an update
    under that id changes the earlier entry and not the new one. *)
Theorem added_duplicate_is_shadowed (st : LeadsState) (payload other : Lead) :
  Exists (λ y, id y = id payload) (leads st) →
  List.find (has_id (id payload)) (leads (addLead st payload))
  = List.find (has_id (id payload)) (leads st)
  ∧ (id other = id payload →
     updateLead (addLead st payload) other = addLead (updateLead st other) payload).
Proof.
  intros Hex. destruct st as [ls]. simpl in *.
  assert (Hidx : ∀ tail, findIndex (has_id (id payload)) ls ≠ -1
                 ∧ findIndex (has_id (id payload)) (ls ++ tail)
                   = findIndex (has_id (id payload)) ls).
  { intros tail. induction Hex as [x ls Hx|x ls _ IH]; simpl.
    - apply LeadsFacts.has_id_true in Hx. by rewrite Hx.
    - destruct (has_id (id payload) x); [done|]. destruct IH as [Hne ->].
      pose proof (LeadsFacts.findIndex_range (has_id (id payload)) ls).
      destruct (Z.eqb_spec (findIndex (has_id (id payload)) ls) (-1)); [done|].
      split; [lia|done]. }
  split.
  - rewrite !find_is_findIndex. unfold addLead. simpl.
    destruct (Hidx [payload]) as [Hne ->].
    destruct (Z.eqb_spec (findIndex (has_id (id payload)) ls) (-1)); [done|].
    destruct (LeadsFacts.findIndex_hit _ _ Hne) as (x & Hx & _).
    rewrite Hx. by apply lookup_app_l_Some.
  - intros Hother. unfold updateLead, addLead. simpl. rewrite Hother.
    destruct (Hidx [payload]) as [Hne ->].
    destruct (Z.eqb_spec (findIndex (has_id (id payload)) ls) (-1)); [done|].
    simpl. f_equal.
    destruct (LeadsFacts.findIndex_hit _ _ Hne) as (x & Hx & _).
    apply insert_app_l. by apply lookup_lt_Some in Hx.
Qed.

Lemma added_duplicate_is_shadowed_witness :
  List.find (has_id "id-1")
    (leads (addLead {| leads := [BridgeExamples.lead_a] |} BridgeExamples.lead_twin))
  = Some BridgeExamples.lead_a.
Proof.
  apply (added_duplicate_is_shadowed {| leads := [BridgeExamples.lead_a] |}
           BridgeExamples.lead_twin BridgeExamples.lead_a).
  apply Exists_cons_hd. reflexivity.
Defined.

Lemma ids_reducer (st : LeadsState) (a : Action) :
  ids (reducer st a) = ids_step (ids st) a.
Proof.
  destruct a as [p|p|p|i]; simpl.
  - done.
  - unfold ids, addLead. simpl. by rewrite map_app.
  - unfold ids. destruct st as [ls]. apply updateLead_ids_list.
  - unfold ids, deleteLead. simpl. induction (leads st) as [|x ls IH]; [done|].
    simpl. unfold has_id at 1. destruct (String.eqb (id x) i); simpl; by rewrite IH.
Qed.

(** X8. Whatever sequence of set, add, update and delete actions is
    replayed, the ids of the resulting collection are those obtained by
    replaying the sequence on the id list alone. *)
Theorem replay_ids (actions : list Action) (st : LeadsState) :
  ids (replay st actions) = fold_left ids_step actions (ids st).
Proof.
  unfold replay. revert st. induction actions as [|a actions IH]; intros st;
    [done|].
  simpl. by rewrite IH, ids_reducer.
Qed.

End LeadsMore.

(** ** More on the persistence bridge *)

Module BridgeMore.
Import Leads Bridge Terms.





(** X10. The four handlers and [fetchLeads] leave every key other than the
    current user's [leads_<email>] as it was: the recorded email and
    the entries of other users are never touched. *)
Theorem handlers_touch_one_key (app : App) (ls : list Lead) (k : string) :
  k ≠ getLeadsKey (storage app) →
  (∀ i, storage (handleDelete ls i app) !! k = storage app !! k)
  ∧ (∀ lead newStatus,
       storage (handleStatusChange ls lead newStatus app) !! k = storage app !! k)
  ∧ (∀ id uuid data,
       storage (onSubmit ls id uuid data app).1 !! k = storage app !! k)
  ∧ storage (fetchLeads app) !! k = storage app !! k.
Proof.
  intros Hk. split; [|split; [|split]].
  - intros i. unfold handleDelete. simpl. by rewrite lookup_insert_ne.
  - intros lead newStatus. unfold handleStatusChange. simpl.
    by rewrite lookup_insert_ne.
  - intros id uuid data. unfold onSubmit.
    destruct (edit_id id); simpl; [by rewrite lookup_insert_ne|].
    destruct (storage app !! getLeadsKey (storage app)) as [existing|]; simpl.
    + destruct (nonempty existing); [destruct (Json.parse existing)|]; simpl;
        try done; by rewrite lookup_insert_ne.
    + by rewrite lookup_insert_ne.
  - unfold fetchLeads.
    destruct (storage app !! getLeadsKey (storage app)) as [text|]; [|done].
    destruct (nonempty text); [|done]. by destruct (Json.parse text).
Qed.

Lemma handlers_touch_one_key_witness :
  storage (handleDelete [BridgeExamples.lead_a] "id-1"
             (BridgeExamples.app_of [BridgeExamples.lead_a]))
    !! "currentUserEmail"
  = Some "john@mail.com".
Proof.
  rewrite (proj1 (handlers_touch_one_key
                    (BridgeExamples.app_of [BridgeExamples.lead_a])
                    [BridgeExamples.lead_a] "currentUserEmail"
                    ltac:(discriminate))); reflexivity.
Defined.

(** X11. The leads key is injective in the recorded email: two stores
    whose recorded emails differ have different keys; a store with no
    recorded email has the key of the recorded email [null]. *)
Theorem leads_key_separates_users (st st' : gmap string string) (e e' : string) :
  (st !! "currentUserEmail" = Some e → st' !! "currentUserEmail" = Some e' →
   getLeadsKey st = getLeadsKey st' → e = e')
  ∧ (st !! "currentUserEmail" = None → st' !! "currentUserEmail" = Some "null" →
     getLeadsKey st = getLeadsKey st').
Proof.
  unfold getLeadsKey. split.
  - intros -> ->. apply (inj (String.append "leads_")).
  - by intros -> ->.
Qed.

Lemma leads_key_separates_users_witness :
  getLeadsKey (∅ : gmap string string)
  = getLeadsKey ({[ "currentUserEmail" := "null" ]} : gmap string string).
Proof.
  apply (leads_key_separates_users ∅ {[ "currentUserEmail" := "null" ]}
           EmptyString EmptyString); reflexivity.
Defined.

(** X12. An [add] builds on the stored array, not on the collection in
    memory: when the entry holds the serialisation of [stored], the
    entry afterwards holds [stored] with the new lead appended, while
    memory is the reducer's result. *)
Theorem add_appends_to_stored (app : App) (ls stored : list Lead)
    (uuid : string) (data : LeadFormData) :
  storage app !! getLeadsKey (storage app) = Some (Json.stringify stored) →
  onSubmit ls None uuid data app
  = ({| store := addLead (store app) (lead_of_form uuid data);
        storage := <[getLeadsKey (storage app) :=
                       Json.stringify (stored ++ [lead_of_form uuid data])]>
                     (storage app) |},
     LeadAdded).
Proof.
  intros Hstored. unfold onSubmit. simpl.
  by rewrite Hstored, BridgeFacts.nonempty_stringify, JsonFacts.parse_stringify.
Qed.

Lemma add_appends_to_stored_witness :
  (onSubmit [] None "id-9" BridgeExamples.form0
     (BridgeExamples.app_of [BridgeExamples.lead_b])).2 = LeadAdded.
Proof.
  rewrite (add_appends_to_stored (BridgeExamples.app_of [BridgeExamples.lead_b])
             [] [BridgeExamples.lead_b] "id-9" BridgeExamples.form0);
    reflexivity.
Defined.

Lemma parse_not_array (text : string) :
  Corrupt.not_array_text text = true → Json.parse text = None.
Proof.
  destruct text as [|c text]; [done|]. simpl.
  destruct (Ascii.eqb c "["); [done|]. done.
Qed.

Lemma nonempty_not_array (text : string) :
  Corrupt.not_array_text text = true → nonempty text = true.
Proof. by destruct text. Qed.

(** X13. When the stored entry is not the text of an array, an [add] has
    already put the lead into memory when reading the entry fails: the
    store keeps the old text, the toast reports an error, and memory
    and store disagree. *)
Theorem add_over_corrupt_entry (app : App) (ls : list Lead) (text uuid : string)
    (data : LeadFormData) :
  storage app !! getLeadsKey (storage app) = Some text →
  Corrupt.not_array_text text = true →
  onSubmit ls None uuid data app
  = ({| store := addLead (store app) (lead_of_form uuid data);
        storage := storage app |},
     ErrorSavingLead).
Proof.
  intros Hstored Htext. unfold onSubmit. simpl.
  by rewrite Hstored, nonempty_not_array, parse_not_array.
Qed.

Lemma add_over_corrupt_entry_witness :
  (onSubmit [] None "id-1" BridgeExamples.form0
     {| store := initialState;
        storage := {[ "leads_null" := "oops" ]} |}).2 = ErrorSavingLead.
Proof.
  rewrite (add_over_corrupt_entry
             {| store := initialState; storage := {[ "leads_null" := "oops" ]} |}
             [] "oops" "id-1" BridgeExamples.form0); reflexivity.
Defined.

(** X14. [fetchLeads] never writes to the store, running it twice is the
    same as running it once, and with no entry under the key, or an
    empty one, the collection in memory becomes empty. *)
Theorem fetchLeads_reads_only (app : App) :
  storage (fetchLeads app) = storage app
  ∧ fetchLeads (fetchLeads app) = fetchLeads app
  ∧ (storage app !! getLeadsKey (storage app) = None
     ∨ storage app !! getLeadsKey (storage app) = Some EmptyString →
     leads (store (fetchLeads app)) = []).
Proof.
  assert (Hst : ∀ a, storage (fetchLeads a) = storage a).
  { intros a. unfold fetchLeads.
    destruct (storage a !! getLeadsKey (storage a)) as [text|]; [|done].
    destruct (nonempty text); [|done]. by destruct (Json.parse text). }
  split; [apply Hst|]. split.
  - unfold fetchLeads at 1. rewrite Hst. unfold fetchLeads.
    destruct (storage app !! getLeadsKey (storage app)) as [text|]; [|done].
    destruct (nonempty text); [|done]. by destruct (Json.parse text).
  - unfold fetchLeads. by intros [->| ->].
Qed.

Lemma fetchLeads_reads_only_witness :
  leads (store (fetchLeads
    {| store := {| leads := [BridgeExamples.lead_a] |};
       storage := {[ "currentUserEmail" := "john@mail.com" ]} |})) = [].
Proof.
  apply (fetchLeads_reads_only
    {| store := {| leads := [BridgeExamples.lead_a] |};
       storage := {[ "currentUserEmail" := "john@mail.com" ]} |}).
  left. reflexivity.
Defined.

Lemma lead_of_form_of_lead (lead : Lead) :
  lead_of_form (id lead) (Table.form_of_lead lead) = lead.
Proof. by destruct lead. Qed.

(** X15. Opening the edit form on an id of the collection fills it from the
    first lead with that id, and submitting it untouched leaves the
    collection in memory exactly as it was. *)
Theorem untouched_edit_changes_nothing (app : App) (i uuid : string)
    (values : LeadFormData) :
  Table.form_reset_effect (Some i) (leads (store app)) = Table.ResetTo values →
  store (onSubmit (leads (store app)) (Some i) uuid values app).1 = store app
  ∧ (onSubmit (leads (store app)) (Some i) uuid values app).2 = LeadUpdated.
Proof.
  destruct app as [[ls] st]. unfold Table.form_reset_effect, onSubmit. simpl.
  destruct (nonempty i); [|done]. simpl.
  rewrite LeadsMore.find_is_findIndex.
  destruct (Z.eqb_spec (findIndex (has_id i) ls) (-1)) as [|Hfound]; [done|].
  destruct (LeadsFacts.findIndex_hit _ _ Hfound) as (x & Hx & Hid).
  rewrite Hx. intros [= <-]. apply LeadsFacts.has_id_true in Hid. subst i.
  rewrite lead_of_form_of_lead. split; [|done].
  unfold updateLead. simpl.
  destruct (Z.eqb_spec (findIndex (has_id (id x)) ls) (-1)); [done|]. simpl.
  f_equal. by apply list_insert_id.
Qed.

Lemma untouched_edit_changes_nothing_witness :
  store (onSubmit [BridgeExamples.lead_b; BridgeExamples.lead_a] (Some "id-1")
           "unused" (Table.form_of_lead BridgeExamples.lead_a)
           (BridgeExamples.app_of [BridgeExamples.lead_b; BridgeExamples.lead_a])).1
  = {| leads := [BridgeExamples.lead_b; BridgeExamples.lead_a] |}.
Proof.
  apply (untouched_edit_changes_nothing
           (BridgeExamples.app_of [BridgeExamples.lead_b; BridgeExamples.lead_a])
           "id-1" "unused" (Table.form_of_lead BridgeExamples.lead_a)).
  reflexivity.
Defined.



End BridgeMore.

(** ** The leads table: search and pages *)

Module TableFacts.
Import Leads Table.

Lemma paginated_take_drop {A} (page : nat) (xs : list A) :
  paginatedLeads page xs = take itemsPerPage (drop (page * itemsPerPage) xs).
Proof.
  unfold paginatedLeads, slice, page_from, page_to.
  destruct (Nat.le_gt_cases ((page + 1) * itemsPerPage) (length xs)) as [Hfull|Hlast].
  - rewrite Nat.min_l by done. f_equal. lia.
  - rewrite Nat.min_r by lia.
    rewrite !take_ge; [done| |]; rewrite length_drop; lia.
Qed.

Lemma numberOfPages_covers (n : nat) : (n ≤ numberOfPages n * itemsPerPage)%nat.
Proof.
  unfold numberOfPages, itemsPerPage.
  pose proof (Nat.div_mod_eq (n + (10 - 1)) 10).
  pose proof (Nat.mod_upper_bound (n + (10 - 1)) 10). lia.
Qed.

Lemma numberOfPages_tight (n page : nat) :
  (page < numberOfPages n)%nat ↔ (page * itemsPerPage < n)%nat.
Proof.
  unfold numberOfPages, itemsPerPage.
  pose proof (Nat.div_mod_eq (n + (10 - 1)) 10).
  pose proof (Nat.mod_upper_bound (n + (10 - 1)) 10). lia.
Qed.

Lemma pages_concat {A} (n : nat) (xs : list A) :
  (length xs ≤ n * itemsPerPage)%nat →
  concat (List.map (λ page, take itemsPerPage (drop (page * itemsPerPage) xs))
                   (seq 0 n)) = xs.
Proof.
  revert xs. induction n as [|n IH]; intros xs Hlen.
  - simpl in *. destruct xs; [done|simpl in Hlen; lia].
  - simpl seq. rewrite <- seq_shift. cbn [List.map concat].
    rewrite List.map_map, Nat.mul_0_l, drop_0.
    transitivity (take itemsPerPage xs ++ drop itemsPerPage xs);
      [|apply take_drop].
    f_equal.
    etransitivity;
      [|apply (IH (drop itemsPerPage xs)); rewrite length_drop; lia].
    f_equal. apply List.map_ext. intros page. f_equal.
    rewrite drop_drop. f_equal; lia.
Qed.

(** X17. The pages from [0] to [numberOfPages - 1], one after the other,
    are the whole list in its order: every row is on exactly one page
    and none is dropped; and no page holds more than ten rows. *)
Theorem pages_partition_the_list {A} (xs : list A) :
  concat (List.map (λ page, paginatedLeads page xs)
                   (seq 0 (numberOfPages (length xs)))) = xs
  ∧ ∀ page, (length (paginatedLeads page xs) ≤ itemsPerPage)%nat.
Proof.
  split.
  - rewrite <- (pages_concat (numberOfPages (length xs)) xs) at 2
      by apply numberOfPages_covers.
    f_equal. apply List.map_ext. intros page. apply paginated_take_drop.
  - intros page. rewrite paginated_take_drop, length_take. lia.
Qed.

(** X18. A page shows rows exactly when its number is below
    [numberOfPages]: a page number left over from a longer list (after
    a delete, or a narrower search) shows nothing although the list is
    not empty. *)
Theorem page_is_empty_beyond_last {A} (page : nat) (xs : list A) :
  paginatedLeads page xs = [] ↔ (numberOfPages (length xs) ≤ page)%nat.
Proof.
  rewrite paginated_take_drop.
  pose proof (numberOfPages_tight (length xs) page) as Htight.
  split.
  - intros Hempty. apply (f_equal length) in Hempty.
    rewrite length_take, length_drop in Hempty.
    change (length (@nil A)) with 0%nat in Hempty.
    unfold itemsPerPage in *. lia.
  - intros Hpage. rewrite drop_ge; [by rewrite take_nil|]. lia.
Qed.

Lemma page_is_empty_beyond_last_witness :
  paginatedLeads 1 (replicate 10 BridgeExamples.lead_a) = [].
Proof.
  apply (page_is_empty_beyond_last 1 (replicate 10 BridgeExamples.lead_a)).
  vm_compute. lia.
Defined.

(** X19. Row [index] of a page is the entry of the list whose position,
    counted from one, is the serial number shown in that row. *)
Theorem row_shows_serial_entry {A} (page index : nat) (xs : list A) :
  (index < itemsPerPage)%nat →
  paginatedLeads page xs !! index = xs !! (serial page index - 1)%nat.
Proof.
  intros Hindex. rewrite paginated_take_drop.
  rewrite lookup_take_lt by done. rewrite lookup_drop.
  f_equal. unfold serial, page_from. lia.
Qed.

Lemma row_shows_serial_entry_witness :
  paginatedLeads 0 [BridgeExamples.lead_a; BridgeExamples.lead_b] !! 1%nat
  = Some BridgeExamples.lead_b.
Proof.
  rewrite (row_shows_serial_entry 0 1 [BridgeExamples.lead_a; BridgeExamples.lead_b]).
  - reflexivity.
  - unfold itemsPerPage. lia.
Defined.

Lemma includes_empty (s : string) : includes s EmptyString = true.
Proof. by destruct s. Qed.

(** X20. Whatever the engine's lower-casing does, the search result is the
    collection with entries struck out, the rest in their order; and if
    lower-casing the empty string gives the empty string, an empty
    search shows every lead. *)
Theorem search_keeps_order (toLowerCase : string → string) (search : string)
    (leads : list Lead) :
  filteredLeads toLowerCase search leads `sublist_of` leads
  ∧ (toLowerCase EmptyString = EmptyString →
     filteredLeads toLowerCase EmptyString leads = leads).
Proof.
  split; [apply LeadsFacts.filter_sublist|].
  intros Hempty. apply LeadsFacts.filter_keeps_all, Forall_forall.
  intros lead _. unfold matches. by rewrite Hempty, includes_empty.
Qed.

Lemma search_keeps_order_witness :
  filteredLeads (λ s, s) EmptyString [BridgeExamples.lead_a; BridgeExamples.lead_b]
  = [BridgeExamples.lead_a; BridgeExamples.lead_b].
Proof.
  apply (search_keeps_order (λ s, s) EmptyString
           [BridgeExamples.lead_a; BridgeExamples.lead_b]).
  reflexivity.
Defined.

End TableFacts.

(** ** More on the auth container and the screens *)

Module AuthMore.
Import Auth Terms.

Local Open Scope thunk_scope.

Ltac run_thunk :=
  unfold exec, loginUser, registerUser, logoutUser, loadToken, createAsyncThunk,
    loginUser_creator, registerUser_creator, AppInit.fetchProfile,
    AppInit.get_auth, throw_message, fetch, json, log, lift, dispatch,
    SecureStore_getItemAsync, SecureStore_deleteItemAsync,
    try_catch, bind, ret, throw in *;
  cbn [fst snd secure auth trace] in *.

(** X21. A login that is answered with status 201 and a token, and whose
    profile request is answered with a 2xx status, ends fulfilled:
    [token] is the token, [user] the profile, [loading] is false,
    [error] is null, and the secure store holds the same token. *)
Theorem login_success (w : World) (c : LoginCredentials) (t : string)
    (presp : Response) (u : JsVal) (s : Sys) :
  login_accepted w c t →
  w (profile_request (JStr t)) = inr presp → json_body presp = inr u →
  ok presp = true →
  auth (exec (loginUser w c) s)
    = {| user := u; token := Some t; loading := false; error := None |}
  ∧ secure (exec (loginUser w c) s) !! "token" = Some t
  ∧ trace (exec (loginUser w c) s)
    = trace s ++ [EvDispatch LoginPending; EvFetch (login_request c);
                  EvSecureSet "token" t; EvFetch (profile_request (JStr t));
                  EvDispatch (LoginFulfilled t u)].
Proof.
  intros (resp & data & Hw & Hst & Hbody & Htok) Hpw Hpbody Hok. run_thunk.
  rewrite Hw, Hbody, Hst, Htok. simpl. rewrite Hpw, Hpbody, Hok. simpl.
  rewrite lookup_insert_eq, !AuthFacts.app_snoc_assoc. done.
Qed.

Lemma login_success_witness :
  token (auth (exec (loginUser
    (λ r, inr {| status := 201;
                 json_body := inr (JObj [("access_token", JStr "tok123");
                                         ("email", JStr "john@mail.com")]) |})
    Examples.cred0) Examples.sys0)) = Some "tok123".
Proof.
  destruct (login_success
    (λ r, inr {| status := 201;
                 json_body := inr (JObj [("access_token", JStr "tok123");
                                         ("email", JStr "john@mail.com")]) |})
    Examples.cred0 "tok123"
    {| status := 201;
       json_body := inr (JObj [("access_token", JStr "tok123");
                               ("email", JStr "john@mail.com")]) |}
    (JObj [("access_token", JStr "tok123"); ("email", JStr "john@mail.com")])
    Examples.sys0) as [Hauth _].
  - eexists _, _. repeat split; reflexivity.
  - reflexivity.
  - reflexivity.
  - reflexivity.
  - by rewrite Hauth.
Defined.

(** X22. Every run of [loginUser] ends with [loading] false, and when it
    ends fulfilled the token in memory is the one in the secure store
    and [error] is null. *)
Theorem loginUser_settles (w : World) (c : LoginCredentials) (s : Sys) :
  loading (auth (exec (loginUser w c) s)) = false
  ∧ ∀ t u,
      last (trace (exec (loginUser w c) s)) = Some (EvDispatch (LoginFulfilled t u)) →
      token (auth (exec (loginUser w c) s)) = Some t
      ∧ secure (exec (loginUser w c) s) !! "token" = Some t
      ∧ error (auth (exec (loginUser w c) s)) = None.
Proof.
  unfold exec. rewrite AuthFacts.loginUser_unfold.
  destruct (AuthFacts.loginUser_creator_returns w c (dispatch LoginPending s).2)
    as (r & evs & sec & -> & Hsec).
  unfold dispatch. destruct r as [m|[t' u']]; simpl.
  - split; [done|]. by intros t u Hlast%AuthFacts.last_snoc_eq.
  - split; [done|]. intros t u [= <- <-]%AuthFacts.last_snoc_eq.
    split; [done|]. split; [|done]. by eapply Hsec.
Qed.

Lemma loginUser_settles_witness :
  loading (auth (exec (loginUser Examples.world_unauthorized Examples.cred0)
                      Examples.sys0)) = false.
Proof.
  apply (loginUser_settles Examples.world_unauthorized Examples.cred0 Examples.sys0).
Defined.

(** X23. [registerUser] never writes to the secure store and never changes
    [token]: a registration does not log in.  Answered with status 201
    it sets [user] to the body of the reply; refused, it leaves [user]
    alone and sets [error]. *)
Theorem registerUser_does_not_log_in (w : World) (userData : RegisterUserData)
    (s : Sys) :
  secure (exec (registerUser w userData) s) = secure s
  ∧ token (auth (exec (registerUser w userData) s)) = token (auth s)
  ∧ loading (auth (exec (registerUser w userData) s)) = false
  ∧ (∀ resp data,
       w (register_request userData) = inr resp → json_body resp = inr data →
       (status resp = 201 →
        user (auth (exec (registerUser w userData) s)) = data
        ∧ error (auth (exec (registerUser w userData) s)) = None)
       ∧ (status resp ≠ 201 →
          user (auth (exec (registerUser w userData) s)) = user (auth s)
          ∧ is_Some (error (auth (exec (registerUser w userData) s))))).
Proof.
  run_thunk.
  destruct (w (register_request userData)) as [e|resp] eqn:Hw; simpl.
  { do 3 (split; [done|]). intros ? ? [=]. }
  destruct (json_body resp) as [e|data] eqn:Hbody; simpl.
  { do 3 (split; [done|]). intros ? ? [= <-] Hb. congruence. }
  destruct (Z.eqb_spec (status resp) 201) as [Hst|Hst]; simpl.
  - do 3 (split; [done|]). intros ? ? [= <-] Hb.
    rewrite Hbody in Hb. injection Hb as <-. split; [done|]. done.
  - destruct (get_prop data "message"); simpl;
      (do 3 (split; [done|])); intros ? ? [= <-] Hb; (split; [done|]);
      intros _; (split; [done|]); by eexists.
Qed.

Lemma registerUser_does_not_log_in_witness :
  user (auth (exec (registerUser
    (λ r, inr {| status := 201;
                 json_body := inr (JObj [("email", JStr "new@mail.com")]) |})
    {| reg_name := "N"; reg_email := "new@mail.com";
       reg_password := "secret1"; reg_gender := Some "female" |})
    Examples.sys0))
  = JObj [("email", JStr "new@mail.com")].
Proof.
  destruct (registerUser_does_not_log_in
    (λ r, inr {| status := 201;
                 json_body := inr (JObj [("email", JStr "new@mail.com")]) |})
    {| reg_name := "N"; reg_email := "new@mail.com";
       reg_password := "secret1"; reg_gender := Some "female" |}
    Examples.sys0) as (_ & _ & _ & Hreply).
  destruct (Hreply
    {| status := 201;
       json_body := inr (JObj [("email", JStr "new@mail.com")]) |}
    (JObj [("email", JStr "new@mail.com")]) eq_refl eq_refl) as [Hcreated _].
  apply Hcreated. reflexivity.
Defined.

Lemma loadToken_auth (s : Sys) :
  auth (exec loadToken s)
  = {| user := user (auth s); token := secure s !! "token";
       loading := loading (auth s); error := error (auth s) |}.
Proof. by run_thunk. Qed.

(** X24. After [logoutUser], a fresh start of the app finds no token: on any
    device whose secure store is the one the logout left, [loadToken]
    sets [token] to null. *)
Theorem logout_survives_restart (s s0 : Sys) :
  secure s0 = secure (exec logoutUser s) →
  token (auth (exec loadToken s0)) = None.
Proof.
  intros Hsecure. rewrite loadToken_auth. simpl. rewrite Hsecure.
  run_thunk. simpl. apply lookup_delete_eq.
Qed.

Lemma logout_survives_restart_witness :
  token (auth (exec loadToken
    {| secure := secure (exec logoutUser Examples.sys_stored_token);
       auth := initialState; trace := [] |})) = None.
Proof.
  apply (logout_survives_restart Examples.sys_stored_token). reflexivity.
Defined.

Lemma accepted_login_stores_token (w : World) (c : LoginCredentials) (t : string)
    (s : Sys) :
  login_accepted w c t → secure (exec (loginUser w c) s) !! "token" = Some t.
Proof.
  intros (resp & data & Hw & Hst & Hbody & Htok). run_thunk.
  rewrite Hw, Hbody, Hst, Htok. simpl.
  destruct (w (profile_request (JStr t))) as [e|presp]; simpl;
    [by rewrite lookup_insert_eq|].
  destruct (json_body presp) as [e|u]; simpl; [by rewrite lookup_insert_eq|].
  destruct (ok presp); simpl; [by rewrite lookup_insert_eq|].
  destruct (get_prop u "message"); simpl; by rewrite lookup_insert_eq.
Qed.

(** X25. Once a login has been answered with a token, the next start of the
    app is a logged-in one whatever became of the profile request, also
    when the login was rejected: [loadToken] on a fresh state over the
    same secure store sets [token], [user] stays null, and the login
    screen goes on to the table. *)
Theorem accepted_login_resumes_after_restart (w : World) (c : LoginCredentials)
    (t : string) (s s0 : Sys) :
  login_accepted w c t → t ≠ EmptyString →
  secure s0 = secure (exec (loginUser w c) s) → auth s0 = initialState →
  auth (exec loadToken s0)
    = {| user := JNull; token := Some t; loading := false; error := None |}
  ∧ ∀ storage,
      Bridge.Login_effect (auth (exec loadToken s0)) false storage
      = (true, storage, Some RouteTableData).
Proof.
  intros Hacc Ht Hsecure Hauth.
  assert (Hst : auth (exec loadToken s0)
                = {| user := JNull; token := Some t; loading := false;
                     error := None |}).
  { rewrite loadToken_auth, Hsecure, Hauth.
    by rewrite (accepted_login_stores_token w c t s Hacc). }
  split; [done|]. intros storage. rewrite Hst.
  unfold Bridge.Login_effect, Bridge.nonempty. simpl.
  by destruct (String.eqb_spec t EmptyString).
Qed.

Lemma accepted_login_resumes_after_restart_witness :
  token (auth (exec loadToken
    {| secure := secure (exec (loginUser Examples.world_profile_down Examples.cred0)
                              Examples.sys0);
       auth := initialState; trace := [] |})) = Some "tok123".
Proof.
  destruct (accepted_login_resumes_after_restart
              Examples.world_profile_down Examples.cred0 "tok123" Examples.sys0
              {| secure := secure (exec (loginUser Examples.world_profile_down
                                           Examples.cred0) Examples.sys0);
                 auth := initialState; trace := [] |}) as [Hauth _].
  - eexists _, _. repeat split; reflexivity.
  - discriminate.
  - reflexivity.
  - reflexivity.
  - by rewrite Hauth.
Defined.

Lemma token_set_Some (st : AuthState) (t : string) :
  AppInit.token_set st = Some t → token st = Some t ∧ t ≠ EmptyString.
Proof.
  unfold AppInit.token_set. destruct (token st) as [t'|]; [|done].
  destruct (String.eqb_spec t' EmptyString); simpl; [done|]. by intros [= <-].
Qed.

(** X26. The profile effect of [AppInitializer] asks for the profile only
    with a token and no user; it never touches the secure store,
    [token] or [error].  A 2xx reply sets [user] (and clears
    [loading]); any other reply changes nothing and shows nothing, so
    a stored token the server no longer accepts stays in place; a
    request that fails shows the toast and changes nothing. *)
Theorem fetchProfile_outcomes (w : World) (s : Sys) :
  secure (exec (AppInit.fetchProfile w) s) = secure s
  ∧ token (auth (exec (AppInit.fetchProfile w) s)) = token (auth s)
  ∧ error (auth (exec (AppInit.fetchProfile w) s)) = error (auth s)
  ∧ (AppInit.token_set (auth s) = None ∨ truthy (user (auth s)) = true →
     AppInit.fetchProfile w s = (inr false, s))
  ∧ (∀ t, AppInit.token_set (auth s) = Some t → truthy (user (auth s)) = false →
     (∀ r u, w (profile_request (JStr t)) = inr r → json_body r = inr u →
        (ok r = true →
         (AppInit.fetchProfile w s).1 = inr false
         ∧ auth (exec (AppInit.fetchProfile w) s)
           = {| user := u; token := Some t; loading := false;
                error := error (auth s) |})
        ∧ (ok r = false →
           (AppInit.fetchProfile w s).1 = inr false
           ∧ auth (exec (AppInit.fetchProfile w) s) = auth s))
     ∧ (∀ e, w (profile_request (JStr t)) = inl e
             ∨ (∃ r, w (profile_request (JStr t)) = inr r ∧ json_body r = inl e) →
        (AppInit.fetchProfile w s).1 = inr true
        ∧ auth (exec (AppInit.fetchProfile w) s) = auth s)).
Proof.
  destruct s as [sec [u0 tok ld err] tr].
  unfold exec, AppInit.fetchProfile, AppInit.get_auth, bind. cbn [fst snd auth].
  destruct (AppInit.token_set {| user := u0; token := tok; loading := ld;
                                 error := err |}) as [t|] eqn:Hset.
  2:{ unfold ret. simpl. do 3 (split; [done|]). split; [done|]. by intros t [=]. }
  apply token_set_Some in Hset as [Htok Ht]. simpl in Htok. subst tok.
  cbn [user]. destruct (truthy u0) eqn:Hu.
  { unfold ret. simpl. do 3 (split; [done|]). split; [done|]. by intros t' _ [=]. }
  cbn [negb]. unfold try_catch, fetch, json, log, lift, dispatch, bind, ret.
  cbn [fst snd secure auth trace].
  destruct (w (profile_request (JStr t))) as [e|r] eqn:Hw; simpl.
  { do 3 (split; [done|]). split; [by intros [[=]|[=]]|].
    intros t' [= <-] _. rewrite Hw. split; [by intros ? ? [=]|]. done. }
  destruct (json_body r) as [e|u] eqn:Hbody; simpl.
  { do 3 (split; [done|]). split; [by intros [[=]|[=]]|].
    intros t' [= <-] _. rewrite Hw. split; [|done].
    intros r' u' [= <-]. congruence. }
  destruct (ok r) eqn:Hok; simpl.
  - do 3 (split; [done|]). split; [by intros [[=]|[=]]|].
    intros t' [= <-] _. rewrite Hw. split.
    + intros r' u' [= <-] Hb. rewrite Hbody in Hb. injection Hb as <-.
      split; [done|]. intros Hno. congruence.
    + intros e [[=]|(r' & [= <-] & Hb)]. congruence.
  - do 3 (split; [done|]). split; [by intros [[=]|[=]]|].
    intros t' [= <-] _. rewrite Hw. split.
    + intros r' u' [= <-] Hb. rewrite Hbody in Hb. injection Hb as <-.
      split; [intros Hno; congruence|]. done.
    + intros e [[=]|(r' & [= <-] & Hb)]. congruence.
Qed.

Lemma fetchProfile_outcomes_witness :
  AppInit.fetchProfile Examples.world_unauthorized Examples.sys0
  = (inr false, Examples.sys0).
Proof.
  apply (fetchProfile_outcomes Examples.world_unauthorized Examples.sys0).
  left. reflexivity.
Defined.

(** X27. The login screen redirects once per session: the first effect run
    that sees a token goes to the table and sets [loginHandled], and
    every later run with a token does nothing.  The email is recorded
    only in that first run, so when the token is there before the user
    (as after [loadToken]) it is never recorded; when the user has a
    non-empty string email the leads key becomes [leads_<email>]. *)
Theorem login_screen_redirects_once (st : AuthState) (t : string)
    (storage : gmap string string) :
  token st = Some t → t ≠ EmptyString →
  (Bridge.Login_effect st false storage).1.1 = true
  ∧ (Bridge.Login_effect st false storage).2 = Some RouteTableData
  ∧ Bridge.Login_effect st true storage = (true, storage, None)
  ∧ (truthy (user st) = false →
     (Bridge.Login_effect st false storage).1.2 = storage)
  ∧ (∀ fields e, user st = JObj fields → obj_get "email" fields = JStr e →
       e ≠ EmptyString →
       (Bridge.Login_effect st false storage).1.2
         = <["currentUserEmail" := e]> storage
       ∧ Bridge.getLeadsKey (Bridge.Login_effect st false storage).1.2
         = "leads_" +:+ e).
Proof.
  intros Htok Ht. unfold Bridge.Login_effect, Bridge.nonempty. rewrite Htok.
  destruct (String.eqb_spec t EmptyString) as [|_]; [done|]. simpl.
  do 3 (split; [done|]). split.
  - by destruct (user st).
  - intros fields e -> -> He.
    destruct (String.eqb_spec e EmptyString) as [|_]; [done|]. simpl.
    split; [done|]. unfold Bridge.getLeadsKey. by rewrite lookup_insert_eq.
Qed.

Lemma login_screen_redirects_once_witness :
  Bridge.Login_effect
    {| user := JNull; token := Some "tok123"; loading := false; error := None |}
    true ∅
  = (true, ∅, None).
Proof.
  apply (login_screen_redirects_once
           {| user := JNull; token := Some "tok123"; loading := false;
              error := None |} "tok123" ∅); [reflexivity|discriminate].
Defined.

(** X28. After a login refused with a non-empty string [message], the
    login screen shows that message as a toast and clears [error], and
    a second run of the effect shows nothing more.  After a refusal
    whose [message] is an empty array, [error] is the empty string: no
    toast is shown and [error] is not cleared. *)
Theorem refused_login_toast (w : World) (c : LoginCredentials) (s : Sys)
    (resp : Response) (data : JsVal) :
  w (login_request c) = inr resp → json_body resp = inr data →
  status resp ≠ 201 →
  (∀ m, get_prop data "message" = inr (JStr m) → m ≠ EmptyString →
     Screens.Login_error_effect (auth (exec (loginUser w c) s))
     = (Some m, {| user := user (auth s); token := token (auth s);
                   loading := false; error := None |})
     ∧ Screens.Login_error_effect
         (Screens.Login_error_effect (auth (exec (loginUser w c) s))).2
       = (None, {| user := user (auth s); token := token (auth s);
                   loading := false; error := None |}))
  ∧ (get_prop data "message" = inr (JArr []) →
     Screens.Login_error_effect (auth (exec (loginUser w c) s))
     = (None, {| user := user (auth s); token := token (auth s);
                 loading := false; error := Some EmptyString |})).
Proof.
  intros Hw Hbody Hst. apply Z.eqb_neq in Hst. run_thunk.
  rewrite Hw, Hbody, Hst. simpl. split.
  - intros m -> Hm. unfold or_else. simpl.
    destruct (String.eqb_spec m EmptyString) as [|_]; [done|]. simpl.
    unfold Screens.Login_error_effect. simpl.
    by destruct (String.eqb_spec m EmptyString).
  - by intros ->.
Qed.

Lemma refused_login_toast_witness :
  (Screens.Login_error_effect
     (auth (exec (loginUser Examples.world_unauthorized Examples.cred0)
                 Examples.sys0))).1
  = Some "Unauthorized".
Proof.
  destruct (refused_login_toast Examples.world_unauthorized Examples.cred0
              Examples.sys0
              {| status := 401;
                 json_body := inr (JObj [("message", JStr "Unauthorized");
                                         ("statusCode", JNum 401)]) |}
              (JObj [("message", JStr "Unauthorized"); ("statusCode", JNum 401)])
              eq_refl eq_refl ltac:(discriminate)) as [Hshown _].
  destruct (Hshown "Unauthorized" eq_refl ltac:(discriminate)) as [Htoast _].
  by rewrite Htoast.
Defined.

(** X29. After [logoutUser] the profile screen leaves for the login screen,
    and the login screen's effect clears its [loginHandled] flag
    without redirecting or writing, so that the next login redirects
    again. *)
Theorem logout_returns_to_login (s : Sys) (handled : bool)
    (storage : gmap string string) :
  Screens.Profile_effect (auth (exec logoutUser s)) = Some RouteLogin
  ∧ Bridge.Login_effect (auth (exec logoutUser s)) handled storage
    = (false, storage, None).
Proof. run_thunk. simpl. by destruct handled. Qed.

(** X30. A registration submitted from the sign-up form and answered
    with status 201 and a body that has a non-empty string [email]:
    while the screen's [signupHandled] flag is still false, its effect
    records that email as the current one, so the leads key is
    [leads_<email>], and sets the flag; once the flag is set, as after
    an earlier registration on the same screen, the effect records
    nothing.  [token] is unchanged either way: nobody is logged in. *)
Theorem registration_records_email (w : World) (name email gender password : string)
    (s : Sys) (resp : Response) (fields : list (string * JsVal)) (e : string)
    (storage : gmap string string) :
  w (register_request {| reg_name := name; reg_email := email;
                         reg_password := password; reg_gender := Some gender |})
    = inr resp →
  status resp = 201 → json_body resp = inr (JObj fields) →
  obj_get "email" fields = JStr e → e ≠ EmptyString →
  Screens.SignUp_effect
    (auth (exec (Screens.SignUp_onSubmit w name email gender password) s))
    false storage
  = (true, <["currentUserEmail" := e]> storage)
  ∧ Bridge.getLeadsKey (<["currentUserEmail" := e]> storage) = "leads_" +:+ e
  ∧ Screens.SignUp_effect
      (auth (exec (Screens.SignUp_onSubmit w name email gender password) s))
      true storage
    = (true, storage)
  ∧ token (auth (exec (Screens.SignUp_onSubmit w name email gender password) s))
    = token (auth s).
Proof.
  intros Hw Hst Hbody Hemail He. unfold Screens.SignUp_onSubmit. run_thunk.
  rewrite Hw, Hbody, Hst. simpl. unfold Screens.SignUp_effect, Bridge.nonempty.
  simpl. rewrite Hemail.
  destruct (String.eqb_spec e EmptyString) as [|_]; [done|]. simpl.
  split; [done|]. split; [|done].
  unfold Bridge.getLeadsKey. by rewrite lookup_insert_eq.
Qed.

Lemma registration_records_email_witness :
  Bridge.getLeadsKey (<["currentUserEmail" := "new@mail.com"]> ∅)
  = "leads_new@mail.com".
Proof.
  apply (registration_records_email
    (λ r, inr {| status := 201;
                 json_body := inr (JObj [("email", JStr "new@mail.com")]) |})
    "N" "new@mail.com" "female" "secret1" Examples.sys0
    {| status := 201;
       json_body := inr (JObj [("email", JStr "new@mail.com")]) |}
    [("email", JStr "new@mail.com")] "new@mail.com" ∅);
    try reflexivity. discriminate.
Defined.

End AuthMore.
